(** * Lab-Task: the canvas drawing widget, the SVG bounce animation and the
    product listing, embedded from [task11/script.js] and the product
    listing script.

    The numbers of the canvas and of the listing (coordinates, sizes,
    prices) are stored and compared, and combined by a single subtraction,
    halving or rounded product at most; they are modelled as exact
    rationals ([Q]).  The animation accumulates products and sums of
    numbers that the page controls hand it, so it is modelled on IEEE 754
    doubles, NaN and the infinities included.  The globals of a script
    become the fields of a state record.  The canvas and the product
    listing are written in a small state and exception monad, the animation
    in plain state-passing style.  A browser call is given the behaviour
    the HTML standard prescribes for it, stated next to its definition. *)

From Stdlib Require Import QArith Qround Lqa Lia Permutation Sorted.
From Stdlib Require Floats.
From stdpp Require Import base option list gmap strings.

Local Open Scope Q_scope.

(** ** JavaScript numbers, exceptions and the state monad *)

Definition number := Q.

Inductive js_error :=
  | TypeError        (* property read on null or undefined *)
  | ReferenceError   (* read of an undeclared global *)
  | IndexSizeError.  (* DOMException of the canvas API *)

(** How a call ends: normally with a value, or abruptly with an exception.
    Either way the assignments made up to that point stay in the state. *)
Inductive outcome (A : Type) :=
  | Ok (a : A)
  | Throw (e : js_error).
Arguments Ok {A} a.
Arguments Throw {A} e.

Section StateMonad.
Context {St : Type}.

Definition JS (A : Type) : Type := St -> outcome A * St.

Definition ret {A} (a : A) : JS A := fun s => (Ok a, s).

Definition bind {A B} (m : JS A) (k : A -> JS B) : JS B :=
  fun s => match m s with
           | (Ok a, s') => k a s'
           | (Throw e, s') => (Throw e, s')
           end.

Definition throw {A} (e : js_error) : JS A := fun s => (Throw e, s).

Definition gets {A} (f : St -> A) : JS A := fun s => (Ok (f s), s).

Definition modify (f : St -> St) : JS unit := fun s => (Ok tt, f s).

(** [for (const a of l) body(a)] over a snapshot of the array. *)
Fixpoint for_of {A} (l : list A) (body : A -> JS unit) : JS unit :=
  match l with
  | [] => ret tt
  | a :: l' => bind (body a) (fun _ => for_of l' body)
  end.

(** [for (let i = lo; i < hi; i++) body(i)]. *)
Definition for_range (lo hi : nat) (body : nat -> JS unit) : JS unit :=
  for_of (seq lo (hi - lo)) body.

(** [a[i]] followed by a property read: reading a property of
    [undefined] throws a TypeError. *)
Definition index {A} (a : list A) (i : nat) : JS A :=
  match a !! i with
  | Some v => ret v
  | None => throw TypeError
  end.

(** The state a call leaves behind, however it ends. *)
Definition state_after {A} (m : JS A) (s : St) : St := snd (m s).

(** The call ends normally. *)
Definition returns {A} (m : JS A) (s : St) : Prop :=
  exists a, fst (m s) = Ok a.
End StateMonad.

Declare Scope js_scope.
Delimit Scope js_scope with js.
Notation "x ← y ; z" := (bind y (fun x => z)) (only parsing) : js_scope.
Notation "x ;; z" := (bind x (fun _ => z)) (only parsing) : js_scope.

(** ** task11/script.js, the canvas drawing app *)

Module Canvas.

(** [{x, y}] *)
Record point := Point { x : number; y : number }.

(** [{color, size, points: [{x,y}, ...]}] *)
Record stroke := Stroke {
  color : string;
  size : number;
  points : list point }.

(** *** The 2D context

    The bitmap is kept as the list of paint operations applied since it
    was last cleared, oldest first; each records the path and the styles
    that were in force when it was painted. *)

Inductive line_join := JoinRound | JoinBevel | JoinMiter.
Inductive line_cap := CapButt | CapRound | CapSquare.

(** Angles are counted in multiples of [Math.PI]. *)
Inductive path_cmd :=
  | MoveTo (px py : number)
  | LineTo (px py : number)
  | Arc (cx cy radius startPi endPi : number).

Inductive paint :=
  | Filled (path : list path_cmd) (style : string)
  | Stroked (path : list path_cmd) (style : string) (width : number)
            (join : line_join) (cap : line_cap).

Record context2d := Context2d {
  fillStyle : string;
  strokeStyle : string;
  lineWidth : number;
  lineJoin : line_join;
  lineCap : line_cap;
  path : list path_cmd;
  bitmap : list paint }.

(** The module-level variables of the script together with [ctx]. *)
Record world := World {
  drawing : bool;
  currentStroke : option stroke;
  strokes : list stroke;
  ctx : context2d }.

Definition set_drawing (b : bool) (w : world) : world :=
  World b (currentStroke w) (strokes w) (ctx w).
Definition set_currentStroke (c : option stroke) (w : world) : world :=
  World (drawing w) c (strokes w) (ctx w).
Definition set_strokes (l : list stroke) (w : world) : world :=
  World (drawing w) (currentStroke w) l (ctx w).
Definition set_ctx (c : context2d) (w : world) : world :=
  World (drawing w) (currentStroke w) (strokes w) c.

Definition on_ctx (f : context2d -> context2d) : JS (St:=world) unit :=
  modify (fun w => set_ctx (f (ctx w)) w).

(** [ctx.fillStyle = c], [ctx.strokeStyle = c]: the colour control hands
    out CSS colours, which the setters store as given. *)
Definition ctx_set_fillStyle (c : string) : JS unit :=
  on_ctx (fun k => Context2d c (strokeStyle k) (lineWidth k) (lineJoin k)
                             (lineCap k) (path k) (bitmap k)).
Definition ctx_set_strokeStyle (c : string) : JS unit :=
  on_ctx (fun k => Context2d (fillStyle k) c (lineWidth k) (lineJoin k)
                             (lineCap k) (path k) (bitmap k)).

(** [ctx.lineWidth = v]: zero and negative values are ignored and leave
    the attribute as it was. *)
Definition ctx_set_lineWidth (v : number) : JS unit :=
  on_ctx (fun k => if Qlt_le_dec 0 v
                   then Context2d (fillStyle k) (strokeStyle k) v (lineJoin k)
                                  (lineCap k) (path k) (bitmap k)
                   else k).

Definition ctx_set_lineJoin (j : line_join) : JS unit :=
  on_ctx (fun k => Context2d (fillStyle k) (strokeStyle k) (lineWidth k) j
                             (lineCap k) (path k) (bitmap k)).
Definition ctx_set_lineCap (c : line_cap) : JS unit :=
  on_ctx (fun k => Context2d (fillStyle k) (strokeStyle k) (lineWidth k)
                             (lineJoin k) c (path k) (bitmap k)).

Definition with_path (p : list path_cmd) (k : context2d) : context2d :=
  Context2d (fillStyle k) (strokeStyle k) (lineWidth k) (lineJoin k)
            (lineCap k) p (bitmap k).
Definition with_bitmap (b : list paint) (k : context2d) : context2d :=
  Context2d (fillStyle k) (strokeStyle k) (lineWidth k) (lineJoin k)
            (lineCap k) (path k) b.

Definition ctx_beginPath : JS unit := on_ctx (with_path []).
Definition ctx_moveTo (px py : number) : JS unit :=
  on_ctx (fun k => with_path (path k ++ [MoveTo px py]) k).
Definition ctx_lineTo (px py : number) : JS unit :=
  on_ctx (fun k => with_path (path k ++ [LineTo px py]) k).

(** [ctx.arc(cx, cy, r, a0, a1)] throws an IndexSizeError for a negative
    radius. *)
Definition ctx_arc (cx cy r a0 a1 : number) : JS (St:=world) unit :=
  if Qlt_le_dec r 0 then throw IndexSizeError
  else on_ctx (fun k => with_path (path k ++ [Arc cx cy r a0 a1]) k).

Definition ctx_stroke : JS unit :=
  on_ctx (fun k => with_bitmap
    (bitmap k ++ [Stroked (path k) (strokeStyle k) (lineWidth k)
                          (lineJoin k) (lineCap k)]) k).
Definition ctx_fill : JS unit :=
  on_ctx (fun k => with_bitmap (bitmap k ++ [Filled (path k) (fillStyle k)]) k).

(** [ctx.clearRect(0, 0, rect.width, rect.height)] with [rect] the
    bounding rectangle of the canvas: the whole bitmap is erased. *)
Definition ctx_clearRect_canvas : JS unit := on_ctx (with_bitmap []).

Local Open Scope js_scope.

(** *** Stroke model *)

(** [beginStroke(x, y)]; [c] is [colorPicker.value] and [sz] is
    [parseInt(brushSize.value, 10)] at the time of the call. *)
Definition beginStroke (c : string) (sz : number) (x y : number)
  : JS (St:=world) unit :=
  modify (set_drawing true) ;;
  modify (set_currentStroke (Some (Stroke c sz [Point x y]))).

Definition drawSegment (p1 p2 : point) (c : string) (sz : number)
  : JS (St:=world) unit :=
  ctx_set_lineJoin JoinRound ;;
  ctx_set_lineCap CapRound ;;
  ctx_set_strokeStyle c ;;
  ctx_set_lineWidth sz ;;
  ctx_beginPath ;;
  ctx_moveTo (x p1) (y p1) ;;
  ctx_lineTo (x p2) (y p2) ;;
  ctx_stroke.

Definition drawDot (x y : number) (c : string) (sz : number)
  : JS (St:=world) unit :=
  ctx_set_fillStyle c ;;
  ctx_beginPath ;;
  ctx_arc x y (sz / 2) 0 2 ;;
  ctx_fill.

(** [currentStroke.points]: a property read on [null] throws. *)
Definition deref (c : option stroke) : JS (St:=world) stroke :=
  match c with
  | Some s => ret s
  | None => throw TypeError
  end.

(** [addPointToStroke(x, y)].  The in-progress stroke object is reachable
    only through [currentStroke] (it enters [strokes] in the same branch
    of [endStroke] that resets [currentStroke]), so the in-place [push]
    is an update of that one field. *)
Definition addPointToStroke (x y : number) : JS (St:=world) unit :=
  d ← gets drawing ;
  c ← gets currentStroke ;
  if negb d || negb (bool_decide (is_Some c)) then ret tt
  else
    cur ← deref c ;
    let cur' := Stroke (color cur) (size cur) (points cur ++ [Point x y]) in
    modify (set_currentStroke (Some cur')) ;;
    let pts := points cur' in
    let len := length pts in
    if (2 <=? len)%nat then
      p1 ← index pts (len - 2) ;
      p2 ← index pts (len - 1) ;
      drawSegment p1 p2 (color cur') (size cur')
    else
      drawDot x y (color cur') (size cur').

(** [endStroke()] *)
Definition endStroke : JS (St:=world) unit :=
  d ← gets drawing ;
  if negb d then ret tt
  else
    modify (set_drawing false) ;;
    c ← gets currentStroke ;
    match c with
    | Some cur =>
        if (0 <? length (points cur))%nat then
          modify (fun w => set_strokes (strokes w ++ [cur]) w) ;;
          modify (set_currentStroke None)
        else ret tt
    | None => ret tt
    end.

(** The body of the loop of [redrawAll()], for one stroke. *)
Definition redraw_stroke (s : stroke) : JS (St:=world) unit :=
  let pts := points s in
  if (length pts =? 1)%nat then
    p ← index pts 0 ;
    drawDot (x p) (y p) (color s) (size s)
  else
    for_range 1 (length pts) (fun i =>
      p1 ← index pts (i - 1) ;
      p2 ← index pts i ;
      drawSegment p1 p2 (color s) (size s)).

(** [redrawAll()] *)
Definition redrawAll : JS (St:=world) unit :=
  ctx_clearRect_canvas ;;
  l ← gets strokes ;
  for_of l redraw_stroke.

(** [undoLast()]: [strokes.pop()] on an empty array leaves it empty. *)
Definition undoLast : JS (St:=world) unit :=
  modify (fun w => set_strokes (removelast (strokes w)) w) ;;
  redrawAll.

(** [clearCanvas()] *)
Definition clearCanvas : JS (St:=world) unit :=
  modify (set_strokes []) ;;
  modify (set_currentStroke None) ;;
  redrawAll.

(** The context of a fresh canvas and the state the script starts in. *)
Definition ctx0 : context2d :=
  Context2d "#000000" "#000000" 1 JoinMiter CapButt [] [].
Definition init : world := World false None [] ctx0.

(** The stroke the script treats as in progress: [addPointToStroke]
    extends a stroke only when [drawing] is set and [currentStroke] is
    not null. *)
Definition inProgress (w : world) : option stroke :=
  if drawing w then currentStroke w else None.

(** The five operations of the stroke model. *)
Inductive op :=
  | Begin (c : string) (sz : number) (p : point)
  | Extend (p : point)
  | End
  | Undo
  | Clear.

Definition run_op (o : op) : JS (St:=world) unit :=
  match o with
  | Begin c sz p => beginStroke c sz (x p) (y p)
  | Extend p => addPointToStroke (x p) (y p)
  | End => endStroke
  | Undo => undoLast
  | Clear => clearCanvas
  end.

(** A sequence of operations, one event handler after the other. *)
Definition run_ops (l : list op) (w : world) : world :=
  fold_left (fun w o => state_after (run_op o) w) l w.

Inductive reachable : world -> Prop :=
  | reach_init : reachable init
  | reach_step w o :
      reachable w -> reachable (state_after (run_op o) w).

(** *** The drawing rule of the specification

    Written from the words of the specification, to be compared with
    [redrawAll]: a stroke of one point is a dot of diameter [size]
    centred at the point and filled in [color]; a stroke of several
    points is the run of round-capped, round-joined segments of width
    [size] in [color] between consecutive points. *)

Definition spec_dot (p : point) (c : string) (d : number) : paint :=
  Filled [Arc (x p) (y p) (d / 2) 0 2] c.

Definition spec_segment (p q : point) (c : string) (wd : number) : paint :=
  Stroked [MoveTo (x p) (y p); LineTo (x q) (y q)] c wd JoinRound CapRound.

Fixpoint spec_segments (pts : list point) (c : string) (wd : number)
  : list paint :=
  match pts with
  | p :: (q :: _) as rest => spec_segment p q c wd :: spec_segments rest c wd
  | _ => []
  end.

Definition spec_draw_stroke (s : stroke) : list paint :=
  match points s with
  | [p] => [spec_dot p (color s) (size s)]
  | pts => spec_segments pts (color s) (size s)
  end.

(** The surface the specification asks of [render(drawing, inProgress?)]:
    a cleared surface, every committed stroke in order, then the
    in-progress stroke, when there is one, on top. *)
Definition spec_render (l : list stroke) (cur : option stroke) : list paint :=
  flat_map spec_draw_stroke l ++ from_option spec_draw_stroke [] cur.

(** The diameter of a painted disc: twice the radius of its full-circle
    arc. *)
Definition dot_diameter (p : paint) : option number :=
  match p with
  | Filled [Arc _ _ r a0 a1] _ =>
      if Qeq_bool a0 0 && Qeq_bool a1 2 then Some (2 * r) else None
  | _ => None
  end.

(** The data model asks for a positive brush size. *)
Definition positive_size (s : stroke) : Prop := 0 < size s.

Definition well_sized (w : world) : Prop :=
  Forall positive_size (strokes w) /\
  forall cur, currentStroke w = Some cur -> positive_size cur.

(** A call that touches nothing but the context, however it ends. *)
Definition ctx_only {A} (m : JS (St:=world) A) : Prop :=
  forall w, exists k, state_after m w = set_ctx k w.

(** A call that ends normally, touches nothing but the context and adds
    the paints [ps] to the bitmap. *)
Definition paints (m : JS (St:=world) unit) (ps : list paint) : Prop :=
  forall w, exists k,
    m w = (Ok tt, set_ctx k w) /\ bitmap k = bitmap (ctx w) ++ ps.

End Canvas.

(** ** task11/script.js, the SVG bounce animation *)

Module SvgAnim.
Import PrimFloat.
Local Open Scope float_scope.

(** The module-level variables of the animation, the [transform] attribute
    of [movingGroup], and the browser's list of animation frame callbacks.
    Every callback the script registers is [svgAnimate], so the list holds
    the handles only.  A handle is an integer greater than zero, hence
    truthy.  The numbers of the animation are IEEE 754 doubles, as in
    JavaScript: [float] with its primitive operations. *)
Record anim := Anim {
  svgAnimReq : option positive;
  svgX : float;
  svgDir : float;
  svgPlaying : bool;
  lastTimestamp : option float;
  translateX : option float;
  frameCallbacks : list positive;
  nextHandle : positive }.

Definition svgMin : float := 30.
Definition svgMax : float := 770.
Definition svgVelocityBase : float := 100.

Definition set_svgAnimReq (r : option positive) (s : anim) : anim :=
  Anim r (svgX s) (svgDir s) (svgPlaying s) (lastTimestamp s) (translateX s)
       (frameCallbacks s) (nextHandle s).
Definition set_svgPlaying (b : bool) (s : anim) : anim :=
  Anim (svgAnimReq s) (svgX s) (svgDir s) b (lastTimestamp s) (translateX s)
       (frameCallbacks s) (nextHandle s).
Definition set_lastTimestamp (t : option float) (s : anim) : anim :=
  Anim (svgAnimReq s) (svgX s) (svgDir s) (svgPlaying s) t (translateX s)
       (frameCallbacks s) (nextHandle s).
Definition set_motion (px dir : float) (s : anim) : anim :=
  Anim (svgAnimReq s) px dir (svgPlaying s) (lastTimestamp s) (translateX s)
       (frameCallbacks s) (nextHandle s).
Definition set_translateX (t : option float) (s : anim) : anim :=
  Anim (svgAnimReq s) (svgX s) (svgDir s) (svgPlaying s) (lastTimestamp s) t
       (frameCallbacks s) (nextHandle s).
Definition set_frameCallbacks (l : list positive) (s : anim) : anim :=
  Anim (svgAnimReq s) (svgX s) (svgDir s) (svgPlaying s) (lastTimestamp s)
       (translateX s) l (nextHandle s).

(** [requestAnimationFrame(svgAnimate)]: appends the callback under a fresh
    handle and returns the handle. *)
Definition requestAnimationFrame (s : anim) : positive * anim :=
  let h := nextHandle s in
  (h, Anim (svgAnimReq s) (svgX s) (svgDir s) (svgPlaying s) (lastTimestamp s)
           (translateX s) (frameCallbacks s ++ [h]) (Pos.succ h)).

(** [cancelAnimationFrame(h)]: removes the callback with that handle. *)
Definition cancelAnimationFrame (h : positive) (s : anim) : anim :=
  set_frameCallbacks (filter (fun h' => h' <> h) (frameCallbacks s)) s.

(** [!lastTimestamp]: [null], [0], [-0] and [NaN] are falsy. *)
Definition falsy (t : option float) : bool :=
  match t with
  | None => true
  | Some q => is_zero q || is_nan q
  end.

(** A [null] operand of [-] counts as [0]. *)
Definition to_number (t : option float) : float :=
  match t with
  | None => 0
  | Some q => q
  end.

(** The bounce of [svgAnimate]: [(svgX, svgDir)] after the two tests. *)
Definition bounce (px dir : float) : float * float :=
  if svgMax <=? px then (svgMax, -1)
  else if px <=? svgMin then (svgMin, 1)
  else (px, dir).

(** [svgAnimate(ts)]; [speedFactor] is [parseFloat(svgSpeed.value)] at the
    time of the call. *)
Definition svgAnimate (speedFactor ts : float) (s : anim) : anim :=
  let s := if falsy (lastTimestamp s) then set_lastTimestamp (Some ts) s
           else s in
  let dt := (ts - to_number (lastTimestamp s)) / 1000 in
  let s := set_lastTimestamp (Some ts) s in
  let velocity := svgVelocityBase * speedFactor in
  let px := svgX s + svgDir s * velocity * dt in
  let s := set_motion (fst (bounce px (svgDir s)))
                      (snd (bounce px (svgDir s))) s in
  let s := set_translateX (Some (svgX s - 50)) s in
  if svgPlaying s then
    let (h, s) := requestAnimationFrame s in set_svgAnimReq (Some h) s
  else s.

(** The seconds [svgAnimate] takes as elapsed, and the position it computes
    in [svgX += svgDir * velocity * dt] before the two tests of the
    bounce. *)
Definition elapsed (ts : float) (s : anim) : float :=
  (ts - to_number (if falsy (lastTimestamp s) then Some ts
                   else lastTimestamp s)) / 1000.

Definition tentative (speedFactor ts : float) (s : anim) : float :=
  svgX s + svgDir s * (svgVelocityBase * speedFactor) * elapsed ts s.

(** [svgMin <= x && x <= svgMax], with the comparisons of doubles. *)
Definition in_range (x : float) : bool := (svgMin <=? x) && (x <=? svgMax).

(** [startSvg()] *)
Definition startSvg (s : anim) : anim :=
  if svgPlaying s then s
  else
    let s := set_svgPlaying true s in
    let s := set_lastTimestamp None s in
    let (h, s) := requestAnimationFrame s in
    set_svgAnimReq (Some h) s.

(** [pauseSvgAnim()] *)
Definition pauseSvgAnim (s : anim) : anim :=
  let s := set_svgPlaying false s in
  match svgAnimReq s with
  | Some h => set_svgAnimReq None (cancelAnimationFrame h s)
  | None => s
  end.

(** The browser runs a frame: the list of callbacks is emptied and each
    callback that was in it is called with the frame's timestamp. *)
Definition runFrame (speedFactor ts : float) (s : anim) : anim :=
  fold_left (fun s _ => svgAnimate speedFactor ts s) (frameCallbacks s)
            (set_frameCallbacks [] s).

(** The variables as the script declares them, and the state after its last
    line, [svgAnimReq = requestAnimationFrame(svgAnimate)]. *)
Definition declared : anim := Anim None 50 1 true None None [] 1%positive.

Definition init : anim :=
  let (h, s) := requestAnimationFrame declared in set_svgAnimReq (Some h) s.

(** What can happen next: a click on play, a click on pause, or a frame. *)
Inductive event :=
  | Play
  | Pause
  | Frame (speedFactor ts : float).

Definition step (e : event) (s : anim) : anim :=
  match e with
  | Play => startSvg s
  | Pause => pauseSvgAnim s
  | Frame v ts => runFrame v ts s
  end.

Inductive reachable : anim -> Prop :=
  | reach_boot : reachable init
  | reach_event s e : reachable s -> reachable (step e s).

(** The two states of the loop, read off the [svgPlaying] flag. *)
Inductive loop_state := Stopped | Running.

Definition loop_state_of (s : anim) : loop_state :=
  if svgPlaying s then Running else Stopped.

End SvgAnim.

(** ** The product listing script *)

Module Products.

(** A record of the catalogue; the script reads these four fields. *)
Record product := Product {
  title : string;
  price : number;
  category : string;
  image : string }.

(** Arrays are objects: the store maps a reference to the elements of the
    array it denotes. *)
Definition loc := positive.

(** The card [renderProducts] writes for one product is determined by the
    four destructured fields; [innerHTML] is kept as the list of cards. *)
Record page := Page {
  heap : gmap loc (list product);
  allProducts : option loc;
  innerHTML : list product }.

Definition set_heap (h : gmap loc (list product)) (s : page) : page :=
  Page h (allProducts s) (innerHTML s).
Definition set_allProducts (a : option loc) (s : page) : page :=
  Page (heap s) a (innerHTML s).
Definition set_innerHTML (c : list product) (s : page) : page :=
  Page (heap s) (allProducts s) c.

Local Open Scope js_scope.

(** A read of the global [allProducts]; before [fetchProducts] has stored
    it there is no such binding. *)
Definition read_allProducts : JS (St:=page) loc :=
  a ← gets allProducts ;
  match a with
  | Some l => ret l
  | None => throw ReferenceError
  end.

Definition array_elements (l : loc) : JS (St:=page) (list product) :=
  h ← gets heap ;
  match h !! l with
  | Some a => ret a
  | None => throw TypeError
  end.

Definition array_new (a : list product) : JS (St:=page) loc :=
  h ← gets heap ;
  let l := fresh (dom h) in
  modify (set_heap (<[l := a]> h)) ;;
  ret l.

(** [[...a]]: a new array with the elements of [a]. *)
Definition spread (l : loc) : JS (St:=page) loc :=
  a ← array_elements l ;
  array_new a.

(** [a.sort(cmp)] sorts [a] in place and returns [a].  The sort is stable;
    for a comparator that orders by a number, as both comparators of the
    script do, its result is that of a stable insertion sort. *)
Fixpoint insert_by (cmp : product -> product -> number) (p : product)
  (a : list product) : list product :=
  match a with
  | [] => [p]
  | q :: a' => if Qle_bool (cmp p q) 0 then p :: a
               else q :: insert_by cmp p a'
  end.

Definition sorted_by (cmp : product -> product -> number) (a : list product)
  : list product :=
  foldr (insert_by cmp) [] a.

Definition array_sort (cmp : product -> product -> number) (l : loc)
  : JS (St:=page) loc :=
  a ← array_elements l ;
  h ← gets heap ;
  modify (set_heap (<[l := sorted_by cmp a]> h)) ;;
  ret l.

(** [a.filter(pred)]: a new array. *)
Definition array_filter (pred : product -> bool) (l : loc)
  : JS (St:=page) loc :=
  a ← array_elements l ;
  array_new (List.filter pred a).

(** [renderProducts(products)] *)
Definition renderProducts (l : loc) : JS (St:=page) unit :=
  modify (set_innerHTML []) ;;
  a ← array_elements l ;
  for_of a (fun p => modify (fun s => set_innerHTML (innerHTML s ++ [p]) s)).

(** [fetchProducts()] once the response has arrived; [data] is the parsed
    body. *)
Definition fetchProducts (data : list product) : JS (St:=page) unit :=
  l ← array_new data ;
  modify (set_allProducts (Some l)) ;;
  renderProducts l.

Definition sortPriceLow : JS (St:=page) unit :=
  a ← read_allProducts ;
  c ← spread a ;
  sorted ← array_sort (fun p q => price p - price q) c ;
  renderProducts sorted.

Definition sortPriceHigh : JS (St:=page) unit :=
  a ← read_allProducts ;
  c ← spread a ;
  sorted ← array_sort (fun p q => price q - price p) c ;
  renderProducts sorted.

Definition filterCategory (cat : string) : JS (St:=page) unit :=
  a ← read_allProducts ;
  filtered ← array_filter (fun p => String.eqb (category p) cat) a ;
  renderProducts filtered.

End Products.

(** ** task11/script.js, the event handlers, the resize and its debounce *)

Module CanvasUI.
Import Canvas.
Local Open Scope js_scope.

(** What [canvas.getBoundingClientRect()] returns. *)
Record rect := Rect {
  left : number;
  top : number;
  width : number;
  height : number }.

(** The coordinates a mouse event or a touch carries. *)
Record pointer := Pointer { clientX : number; clientY : number }.

Record touch_event := TouchEvent { changedTouches : list pointer }.

(** [getCanvasPoint(clientX, clientY)]; [r] is the bounding rectangle of
    the canvas at the time of the call. *)
Definition getCanvasPoint (r : rect) (cx cy : number) : point :=
  Point (cx - left r) (cy - top r).

(** The listeners.  [c] and [sz] are the values of the colour and size
    controls when the listener runs; [e.preventDefault()] has no effect on
    the script's state. *)
Definition on_mousedown (r : rect) (c : string) (sz : number) (e : pointer)
  : JS (St:=world) unit :=
  let p := getCanvasPoint r (clientX e) (clientY e) in
  beginStroke c sz (x p) (y p).

Definition on_mousemove (r : rect) (e : pointer) : JS (St:=world) unit :=
  d ← gets drawing ;
  if negb d then ret tt
  else
    let p := getCanvasPoint r (clientX e) (clientY e) in
    addPointToStroke (x p) (y p).

Definition on_mouseup : JS (St:=world) unit := endStroke.

Definition on_touchstart (r : rect) (c : string) (sz : number)
  (e : touch_event) : JS (St:=world) unit :=
  touch ← index (changedTouches e) 0 ;
  let p := getCanvasPoint r (clientX touch) (clientY touch) in
  beginStroke c sz (x p) (y p).

Definition on_touchmove (r : rect) (e : touch_event) : JS (St:=world) unit :=
  touch ← index (changedTouches e) 0 ;
  let p := getCanvasPoint r (clientX touch) (clientY touch) in
  addPointToStroke (x p) (y p).

Definition on_touchend : JS (St:=world) unit := endStroke.

(** The click listener of [clearBtn]; [confirmed] is what [confirm]
    returned. *)
Definition on_clear_click (confirmed : bool) : JS (St:=world) unit :=
  if confirmed then clearCanvas else ret tt.

(** The surface shows exactly the committed strokes. *)
Definition shows_strokes (w : world) : Prop :=
  bitmap (ctx w) = spec_render (strokes w) None.

(** *** The canvas element, the resize and the timers

    The drawing state together with the attributes of the canvas element
    that [fitCanvasToContainer] writes, the transform of the context, the
    variable [resizeTimeout] and the browser's list of pending timeouts.
    Every timeout the script sets runs [fitCanvasToContainer], so the list
    holds the handle and the time it is due only. *)
Record widget := Widget {
  app : world;
  canvas_width : number;
  canvas_height : number;
  style_width : option number;    (* in px *)
  style_height : option number;   (* in px *)
  transform : number * number * number * number * number * number;
  resizeTimeout : option positive;
  timers : list (positive * number);
  nextTimer : positive }.

Definition set_app (w : world) (s : widget) : widget :=
  Widget w (canvas_width s) (canvas_height s) (style_width s) (style_height s)
         (transform s) (resizeTimeout s) (timers s) (nextTimer s).

(** A call of the drawing script, run on the widget. *)
Definition lift_app {A} (m : JS (St:=world) A) : JS (St:=widget) A :=
  fun s => (fst (m (app s)), set_app (snd (m (app s))) s).

(** [Math.round]: the nearest integer, halves rounded up. *)
Definition Math_round (q : number) : number := inject_Z (Qfloor (q + 1 / 2)).

(** [window.devicePixelRatio || 1]: an absent or zero ratio counts as 1. *)
Definition ratio_or_1 (devicePixelRatio : option number) : number :=
  match devicePixelRatio with
  | Some q => if Qeq_bool q 0 then 1 else q
  | None => 1
  end.

Definition identity_transform
  : number * number * number * number * number * number :=
  (1, 0, 0, 1, 0, 0).

(** [canvas.width = v] and [canvas.height = v]: setting either attribute
    erases the bitmap and resets the context, its transform included, to
    the default state. *)
Definition set_canvas_width (v : number) : JS (St:=widget) unit :=
  modify (fun s =>
    Widget (set_ctx ctx0 (app s)) v (canvas_height s) (style_width s)
           (style_height s) identity_transform (resizeTimeout s) (timers s)
           (nextTimer s)).
Definition set_canvas_height (v : number) : JS (St:=widget) unit :=
  modify (fun s =>
    Widget (set_ctx ctx0 (app s)) (canvas_width s) v (style_width s)
           (style_height s) identity_transform (resizeTimeout s) (timers s)
           (nextTimer s)).

Definition set_style (wd ht : number) : JS (St:=widget) unit :=
  modify (fun s =>
    Widget (app s) (canvas_width s) (canvas_height s) (Some wd) (Some ht)
           (transform s) (resizeTimeout s) (timers s) (nextTimer s)).

(** [ctx.setTransform(a, b, c, d, e, f)] *)
Definition ctx_setTransform (a b c d e f : number) : JS (St:=widget) unit :=
  modify (fun s =>
    Widget (app s) (canvas_width s) (canvas_height s) (style_width s)
           (style_height s) (a, b, c, d, e, f) (resizeTimeout s) (timers s)
           (nextTimer s)).

(** [fitCanvasToContainer()]; [r] is the bounding rectangle of the canvas
    and [devicePixelRatio] the ratio of the window at the time of the
    call. *)
Definition fitCanvasToContainer (r : rect) (devicePixelRatio : option number)
  : JS (St:=widget) unit :=
  let dpr := ratio_or_1 devicePixelRatio in
  set_canvas_width (Math_round (width r * dpr)) ;;
  set_canvas_height (Math_round (height r * dpr)) ;;
  set_style (width r) (height r) ;;
  ctx_setTransform dpr 0 0 dpr 0 0 ;;
  lift_app redrawAll.

(** [clearTimeout(h)]: nothing happens for [null] or for a handle that is
    no longer pending. *)
Definition clearTimeout (h : option positive) (s : widget) : widget :=
  match h with
  | Some i =>
      Widget (app s) (canvas_width s) (canvas_height s) (style_width s)
             (style_height s) (transform s) (resizeTimeout s)
             (filter (fun t => fst t <> i) (timers s)) (nextTimer s)
  | None => s
  end.

(** [setTimeout(callback, delay)] at time [now]: a fresh handle. *)
Definition setTimeout (delay now : number) (s : widget) : positive * widget :=
  (nextTimer s,
   Widget (app s) (canvas_width s) (canvas_height s) (style_width s)
          (style_height s) (transform s) (resizeTimeout s)
          (timers s ++ [(nextTimer s, now + delay)]) (Pos.succ (nextTimer s))).

Definition set_resizeTimeout (h : option positive) (s : widget) : widget :=
  Widget (app s) (canvas_width s) (canvas_height s) (style_width s)
         (style_height s) (transform s) h (timers s) (nextTimer s).

(** [handleResize()], called at time [now]. *)
Definition handleResize (now : number) (s : widget) : widget :=
  let s := clearTimeout (resizeTimeout s) s in
  let (h, s) := setTimeout 120 now s in
  set_resizeTimeout (Some h) s.

(** The browser at time [now]: every timeout that is due is taken off the
    list and its callback is run. *)
Definition due (now : number) (t : positive * number) : bool :=
  Qle_bool (snd t) now.

Definition set_timers (l : list (positive * number)) (s : widget) : widget :=
  Widget (app s) (canvas_width s) (canvas_height s) (style_width s)
         (style_height s) (transform s) (resizeTimeout s) l (nextTimer s).

Definition runTimers (now : number) (r : rect) (devicePixelRatio : option number)
  (s : widget) : widget :=
  fold_left (fun s _ => state_after (fitCanvasToContainer r devicePixelRatio) s)
            (List.filter (due now) (timers s))
            (set_timers (List.filter (fun t => negb (due now t)) (timers s)) s).

(** What happens to the widget: the window is resized, or time passes. *)
Inductive ui_event :=
  | Resize (now : number)
  | Tick (now : number) (r : rect) (devicePixelRatio : option number).

Definition ui_step (e : ui_event) (s : widget) : widget :=
  match e with
  | Resize now => handleResize now s
  | Tick now r dpr => runTimers now r dpr s
  end.

(** The states the widget reaches from one in which no timeout has been
    set. *)
Inductive ui_reachable : widget -> Prop :=
  | ui_start s :
      resizeTimeout s = None -> timers s = [] -> ui_reachable s
  | ui_next s e : ui_reachable s -> ui_reachable (ui_step e s).

End CanvasUI.

(** ** The product listing, the buttons *)

Module ListingUI.
Import Products.

(** The three handlers a button of the page can call. *)
Inductive handler :=
  | SortLow
  | SortHigh
  | Filter (cat : string).

Definition run_handler (h : handler) : JS (St:=page) unit :=
  match h with
  | SortLow => sortPriceLow
  | SortHigh => sortPriceHigh
  | Filter cat => filterCategory cat
  end.

Definition run_handlers (l : list handler) (s : page) : page :=
  fold_left (fun s h => state_after (run_handler h) s) l s.

End ListingUI.

(** * Properties *)

(** ** The state monad *)

Section MonadFacts.
Context {St : Type}.

Lemma bind_ok {A B} (m : JS (St:=St) A) (k : A -> JS B) s a s' :
  m s = (Ok a, s') -> bind m k s = k a s'.
Proof. intros H. unfold bind. now rewrite H. Qed.

Lemma bind_throw {A B} (m : JS (St:=St) A) (k : A -> JS B) s e s' :
  m s = (Throw e, s') -> bind m k s = (Throw e, s').
Proof. intros H. unfold bind. now rewrite H. Qed.

Lemma bind_gets {A B} (f : St -> A) (k : A -> JS B) s :
  bind (gets f) k s = k (f s) s.
Proof. reflexivity. Qed.

Lemma bind_modify {B} (f : St -> St) (k : unit -> JS B) s :
  bind (modify f) k s = k tt (f s).
Proof. reflexivity. Qed.

Lemma bind_ret {A B} (a : A) (k : A -> JS (St:=St) B) s :
  bind (ret a) k s = k a s.
Proof. reflexivity. Qed.

Lemma index_lookup {A} (a : list A) i v (s : St) :
  a !! i = Some v -> index a i s = (Ok v, s).
Proof. intros H. unfold index. now rewrite H. Qed.
End MonadFacts.

(** ** The canvas drawing app *)

Module CanvasFacts.
Import Canvas.
Local Open Scope js_scope.

Lemma set_ctx_set_ctx k k' w : set_ctx k (set_ctx k' w) = set_ctx k w.
Proof. reflexivity. Qed.

Lemma set_ctx_id w : set_ctx (ctx w) w = w.
Proof. now destruct w. Qed.

(** *** Calls that only touch the context *)

Lemma ctx_only_ret {A} (a : A) : ctx_only (ret a).
Proof. intros w. exists (ctx w). symmetry. apply set_ctx_id. Qed.

Lemma ctx_only_throw {A} e : ctx_only (throw (A:=A) e).
Proof. intros w. exists (ctx w). symmetry. apply set_ctx_id. Qed.

Lemma ctx_only_on_ctx f : ctx_only (on_ctx f).
Proof. intros w. now exists (f (ctx w)). Qed.

Lemma ctx_only_bind {A B} (m : JS A) (k : A -> JS B) :
  ctx_only m -> (forall a, ctx_only (k a)) -> ctx_only (bind m k).
Proof.
  intros Hm Hk w. destruct (Hm w) as [k1 H1].
  unfold state_after, bind in *. destruct (m w) as [[a|e] w1]; simpl in H1.
  - subst w1. destruct (Hk a (set_ctx k1 w)) as [k2 H2].
    exists k2. unfold state_after in H2. now rewrite H2.
  - now exists k1.
Qed.

Lemma ctx_only_index {A} (a : list A) i : ctx_only (index a i).
Proof.
  unfold index. destruct (a !! i); [apply ctx_only_ret | apply ctx_only_throw].
Qed.

Lemma ctx_only_for_of {A} (l : list A) body :
  (forall a, ctx_only (body a)) -> ctx_only (for_of l body).
Proof.
  intros Hb. induction l as [|a l IH]; simpl.
  - apply ctx_only_ret.
  - apply ctx_only_bind; auto.
Qed.

Lemma ctx_only_arc cx cy r a0 a1 : ctx_only (ctx_arc cx cy r a0 a1).
Proof.
  unfold ctx_arc. destruct (Qlt_le_dec r 0);
    [apply ctx_only_throw | apply ctx_only_on_ctx].
Qed.

Create HintDb ctx_frame.
#[local] Hint Resolve ctx_only_ret ctx_only_throw ctx_only_on_ctx
  ctx_only_index ctx_only_arc : ctx_frame.
#[local] Hint Extern 2 (ctx_only (bind _ _)) =>
  apply ctx_only_bind; [| intro] : ctx_frame.
#[local] Hint Extern 2 (ctx_only (for_of _ _)) =>
  apply ctx_only_for_of; intro : ctx_frame.

Lemma ctx_only_drawSegment p1 p2 c sz : ctx_only (drawSegment p1 p2 c sz).
Proof.
  unfold drawSegment, ctx_set_lineJoin, ctx_set_lineCap, ctx_set_strokeStyle,
    ctx_set_lineWidth, ctx_beginPath, ctx_moveTo, ctx_lineTo, ctx_stroke.
  auto 20 with ctx_frame.
Qed.

Lemma ctx_only_drawDot px py c sz : ctx_only (drawDot px py c sz).
Proof.
  unfold drawDot, ctx_set_fillStyle, ctx_beginPath, ctx_fill.
  auto 20 with ctx_frame.
Qed.

#[local] Hint Resolve ctx_only_drawSegment ctx_only_drawDot : ctx_frame.

Lemma ctx_only_redraw_stroke s : ctx_only (redraw_stroke s).
Proof.
  unfold redraw_stroke, for_range.
  destruct (length (points s) =? 1)%nat; auto 20 with ctx_frame.
Qed.

Lemma ctx_only_redrawAll : ctx_only redrawAll.
Proof.
  unfold redrawAll, ctx_clearRect_canvas.
  apply ctx_only_bind; [apply ctx_only_on_ctx | intros _].
  intros w. unfold state_after, bind, gets. simpl.
  apply (ctx_only_for_of (strokes w) redraw_stroke ctx_only_redraw_stroke w).
Qed.

(** *** Calls that paint *)

Lemma paints_nil : paints (ret tt) [].
Proof.
  intros w. exists (ctx w). rewrite set_ctx_id, app_nil_r. now split.
Qed.

Lemma paints_bind m1 m2 ps1 ps2 :
  paints m1 ps1 -> paints m2 ps2 -> paints (m1 ;; m2) (ps1 ++ ps2).
Proof.
  intros H1 H2 w. destruct (H1 w) as (k1 & E1 & B1).
  destruct (H2 (set_ctx k1 w)) as (k2 & E2 & B2).
  exists k2. rewrite (bind_ok _ _ _ _ _ E1), E2. split; [reflexivity|].
  rewrite B2. simpl. rewrite B1. now rewrite app_assoc.
Qed.

Lemma paints_for_of {A} (l : list A) body (f : A -> list paint) :
  (forall a, In a l -> paints (body a) (f a)) ->
  paints (for_of l body) (flat_map f l).
Proof.
  induction l as [|a l IH]; intros Hb; simpl.
  - apply paints_nil.
  - apply paints_bind; [apply Hb; now left |].
    apply IH. intros b Hin. apply Hb. now right.
Qed.

Lemma drawSegment_paints p1 p2 c sz :
  0 < sz -> paints (drawSegment p1 p2 c sz) [spec_segment p1 p2 c sz].
Proof.
  intros Hsz w. eexists. unfold drawSegment, ctx_set_lineWidth.
  unfold bind, on_ctx, modify; simpl.
  destruct (Qlt_le_dec 0 sz) as [_|Hle]; [| exfalso; lra].
  split; reflexivity.
Qed.

(** A segment is painted whatever the brush size: [lineWidth] keeps its
    old value when the size is not positive. *)
Lemma drawSegment_returns p1 p2 c sz w :
  exists k, drawSegment p1 p2 c sz w = (Ok tt, set_ctx k w).
Proof.
  eexists. unfold drawSegment, ctx_set_lineWidth.
  unfold bind, on_ctx, modify; simpl. reflexivity.
Qed.

Lemma drawDot_paints p c sz :
  0 < sz -> paints (drawDot (x p) (y p) c sz) [spec_dot p c sz].
Proof.
  intros Hsz w. eexists. unfold drawDot, ctx_arc.
  destruct (Qlt_le_dec (sz / 2) 0) as [Hneg|_].
  - exfalso. assert (0 <= sz / 2) by (apply Qle_shift_div_l; lra). lra.
  - unfold bind, on_ctx, modify; simpl. split; reflexivity.
Qed.

Lemma spec_segments_short pts c sz :
  (length pts <= 1)%nat -> spec_segments pts c sz = [].
Proof. destruct pts as [|p [|q r]]; simpl; intros; [done | done | lia]. Qed.

(** The inner loop of [redrawAll], started at index [a]. *)
Lemma segment_loop_paints pts c sz n : forall a,
  0 < sz -> (1 <= a)%nat -> (a + n = length pts)%nat ->
  paints (for_of (seq a n) (fun i =>
            p1 ← index pts (i - 1) ;
            p2 ← index pts i ;
            drawSegment p1 p2 c sz))
         (spec_segments (drop (a - 1) pts) c sz).
Proof.
  induction n as [|n IH]; intros a Hsz Ha Hlen; simpl.
  - rewrite spec_segments_short; [apply paints_nil |].
    rewrite length_drop. lia.
  - destruct (lookup_lt_is_Some_2 pts (a - 1)) as [p1 Hp1]; [lia|].
    destruct (lookup_lt_is_Some_2 pts a) as [p2 Hp2]; [lia|].
    assert (Hd : drop (a - 1) pts = p1 :: drop a pts).
    { replace a with (S (a - 1)) at 2 by lia. now apply drop_S. }
    assert (Hd2 : drop a pts = p2 :: drop (S a) pts) by now apply drop_S.
    assert (Hs : spec_segments (drop (a - 1) pts) c sz
                 = [spec_segment p1 p2 c sz] ++ spec_segments (drop a pts) c sz)
      by (rewrite Hd, Hd2; reflexivity).
    rewrite Hs. apply paints_bind.
    + intros w. rewrite (bind_ok _ _ _ _ _ (index_lookup _ _ _ _ Hp1)).
      rewrite (bind_ok _ _ _ _ _ (index_lookup _ _ _ _ Hp2)).
      now apply drawSegment_paints.
    + replace a with (S a - 1)%nat at 2 by lia. apply IH; [done | lia | lia].
Qed.

Lemma redraw_stroke_paints s :
  positive_size s -> paints (redraw_stroke s) (spec_draw_stroke s).
Proof.
  intros Hsz. unfold redraw_stroke, spec_draw_stroke, for_range.
  destruct (points s) as [|p [|q r]] eqn:E; simpl length.
  - simpl. apply paints_nil.
  - simpl. intros w. rewrite (bind_ok _ _ _ _ _ (index_lookup [p] 0 p w eq_refl)).
    now apply drawDot_paints.
  - change (S (S (length r)) =? 1)%nat with false. cbv iota.
    replace (S (S (length r)) - 1)%nat with (S (length r)) by lia.
    apply (segment_loop_paints (p :: q :: r) (color s) (size s) (S (length r)) 1);
      [done | lia | simpl; lia].
Qed.

(** [redrawAll] on strokes of positive size: it returns, touches nothing
    but the context, and leaves exactly the paints of the committed
    strokes, whatever the bitmap held before. *)
Lemma redrawAll_paints w :
  Forall positive_size (strokes w) ->
  exists k, redrawAll w = (Ok tt, set_ctx k w) /\
            bitmap k = flat_map spec_draw_stroke (strokes w).
Proof.
  intros Hsz. unfold redrawAll.
  assert (Hloop : paints (for_of (strokes w) redraw_stroke)
                         (flat_map spec_draw_stroke (strokes w))).
  { apply paints_for_of. intros s Hin. apply redraw_stroke_paints.
    rewrite Forall_forall in Hsz. apply Hsz. now apply list_elem_of_In. }
  destruct (Hloop (set_ctx (with_bitmap [] (ctx w)) w)) as (k & E & B).
  exists k. split; [| exact B].
  unfold bind, ctx_clearRect_canvas, on_ctx, modify, gets. simpl.
  exact E.
Qed.

(** *** The stroke model, call by call *)

Lemma state_after_bind_ok {A B} (m : JS A) (k : A -> JS B) (w w1 : world) a :
  m w = (Ok a, w1) -> state_after (bind m k) w = state_after (k a) w1.
Proof. intros H. unfold state_after. now rewrite (bind_ok _ _ _ _ _ H). Qed.

Lemma beginStroke_eq c sz px py w :
  beginStroke c sz px py w
  = (Ok tt, World true (Some (Stroke c sz [Point px py])) (strokes w) (ctx w)).
Proof. reflexivity. Qed.

Lemma inProgress_None w :
  inProgress w = None <-> drawing w = false \/ currentStroke w = None.
Proof.
  unfold inProgress. destruct (drawing w); split; intros H; auto.
  - destruct H; [discriminate | assumption].
Qed.

Lemma addPointToStroke_idle px py w :
  inProgress w = None -> addPointToStroke px py w = (Ok tt, w).
Proof.
  intros H. apply inProgress_None in H. unfold addPointToStroke, bind, gets.
  simpl. destruct H as [H|H]; rewrite H; simpl; [reflexivity|].
  destruct (drawing w); reflexivity.
Qed.

(** With a stroke in progress the point is appended and a segment (or,
    for a stroke that had no point yet, a dot) is painted. *)
Lemma addPointToStroke_extends px py w cur :
  drawing w = true -> currentStroke w = Some cur ->
  points cur <> [] \/ positive_size cur ->
  exists k,
    addPointToStroke px py w
    = (Ok tt, set_ctx k (set_currentStroke
         (Some (Stroke (color cur) (size cur) (points cur ++ [Point px py]))) w)).
Proof.
  intros Hd Hc Hcur. unfold addPointToStroke.
  rewrite bind_gets; cbv beta. rewrite bind_gets; cbv beta.
  rewrite Hd, Hc. rewrite bool_decide_eq_true_2 by eauto.
  cbn [negb orb]. unfold deref. rewrite bind_ret; cbv beta zeta.
  rewrite bind_modify; cbv beta. cbn [points color size].
  set (w1 := set_currentStroke _ w).
  destruct (points cur) as [|q r] eqn:E.
  - destruct Hcur as [Hne|Hpos]; [congruence|]. simpl.
    destruct (drawDot_paints (Point px py) (color cur) (size cur) Hpos w1)
      as (k & Ek & _).
    exists k. exact Ek.
  - assert (Hlen : length ((q :: r) ++ [Point px py]) = S (S (length r)))
      by (rewrite length_app; simpl; lia).
    rewrite Hlen. change (2 <=? S (S (length r)))%nat with true. cbv iota.
    destruct (lookup_lt_is_Some_2 ((q :: r) ++ [Point px py])
                (S (S (length r)) - 2)) as [p1 Hp1]; [lia|].
    destruct (lookup_lt_is_Some_2 ((q :: r) ++ [Point px py])
                (S (S (length r)) - 1)) as [p2 Hp2]; [lia|].
    rewrite (bind_ok _ _ _ _ _ (index_lookup _ _ _ _ Hp1)).
    rewrite (bind_ok _ _ _ _ _ (index_lookup _ _ _ _ Hp2)).
    apply drawSegment_returns.
Qed.

Lemma endStroke_not_drawing w :
  drawing w = false -> endStroke w = (Ok tt, w).
Proof. intros H. unfold endStroke, bind, gets. now rewrite H. Qed.

Lemma endStroke_no_stroke w :
  drawing w = true -> currentStroke w = None ->
  endStroke w = (Ok tt, set_drawing false w).
Proof.
  intros Hd Hc. unfold endStroke, bind, gets, modify. rewrite Hd. simpl.
  now rewrite Hc.
Qed.

Lemma endStroke_commits w cur :
  drawing w = true -> currentStroke w = Some cur -> points cur <> [] ->
  endStroke w = (Ok tt, World false None (strokes w ++ [cur]) (ctx w)).
Proof.
  intros Hd Hc Hne. unfold endStroke, bind, gets, modify. rewrite Hd. simpl.
  rewrite Hc. destruct (points cur); [congruence | reflexivity].
Qed.

Lemma undoLast_state w :
  exists k,
    state_after undoLast w = set_ctx k (set_strokes (removelast (strokes w)) w).
Proof.
  unfold undoLast.
  destruct (ctx_only_redrawAll (set_strokes (removelast (strokes w)) w))
    as [k Hk].
  exists k. rewrite <- Hk. reflexivity.
Qed.

Lemma clearCanvas_eq w :
  exists k, clearCanvas w = (Ok tt, World (drawing w) None [] k).
Proof.
  unfold clearCanvas.
  destruct (redrawAll_paints (World (drawing w) None [] (ctx w))) as (k & E & _);
    [constructor|].
  exists k. unfold bind at 1, modify. cbv iota beta.
  unfold bind at 1, modify. cbv iota beta. exact E.
Qed.

(** The extensions of one gesture. *)
Lemma extends_run ps : forall w cur,
  drawing w = true -> currentStroke w = Some cur -> points cur <> [] ->
  exists k,
    run_ops (map Extend ps) w
    = set_ctx k (set_currentStroke
        (Some (Stroke (color cur) (size cur) (points cur ++ ps))) w).
Proof.
  induction ps as [|p ps IH]; intros w cur Hd Hc Hne.
  - exists (ctx w). simpl. rewrite app_nil_r. destruct w as [d c l k].
    simpl in *. subst. now destruct cur.
  - simpl. destruct (addPointToStroke_extends (x p) (y p) w cur Hd Hc)
      as (k1 & E1); [now left|].
    unfold state_after at 1. simpl run_op. rewrite E1. simpl snd.
    destruct p as [px py]. simpl x in *. simpl y in *.
    edestruct (IH (set_ctx k1 (set_currentStroke
                 (Some (Stroke (color cur) (size cur)
                               (points cur ++ [Point px py]))) w)))
      as (k2 & E2); [exact Hd | reflexivity | |].
    + simpl. now destruct (points cur).
    + exists k2. rewrite E2. simpl. now rewrite <- app_assoc.
Qed.

Lemma run_ops_app l1 l2 w : run_ops (l1 ++ l2) w = run_ops l2 (run_ops l1 w).
Proof. unfold run_ops. apply fold_left_app. Qed.

Lemma In_removelast {A} (a : A) l : In a (removelast l) -> In a l.
Proof.
  induction l as [|b [|c l] IH]; simpl; intros H; auto.
  destruct H as [H|H]; [now left | right; now apply IH].
Qed.

(** *** The invariant of the stroke model *)

Lemma nonempty_points_step w o :
  Forall (fun s => points s <> []) (strokes w) ->
  (forall cur, currentStroke w = Some cur -> points cur <> []) ->
  Forall (fun s => points s <> []) (strokes (state_after (run_op o) w)) /\
  (forall cur, currentStroke (state_after (run_op o) w) = Some cur ->
               points cur <> []).
Proof.
  intros Hs Hc. destruct o as [c sz p | p | | |]; simpl run_op.
  - unfold state_after. rewrite beginStroke_eq. simpl. split; [assumption|].
    intros cur [= <-]. discriminate.
  - destruct (inProgress w) as [cur|] eqn:E.
    + unfold inProgress in E. destruct (drawing w) eqn:Hd; [|discriminate].
      destruct (addPointToStroke_extends (x p) (y p) w cur Hd E) as (k & Ek);
        [left; now apply Hc|].
      unfold state_after. rewrite Ek. simpl. split; [assumption|].
      intros cur' [= <-]. simpl. now destruct (points cur).
    + unfold state_after. rewrite addPointToStroke_idle by assumption.
      now split.
  - destruct (drawing w) eqn:Hd.
    + destruct (currentStroke w) as [cur|] eqn:E.
      * unfold state_after.
        rewrite (endStroke_commits w cur Hd E) by now apply Hc.
        simpl. split; [|discriminate].
        apply Forall_app. split; [assumption|]. constructor; [|constructor].
        now apply Hc.
      * unfold state_after. rewrite (endStroke_no_stroke w Hd E). simpl.
        split; [assumption|]. rewrite E. discriminate.
    + unfold state_after. rewrite (endStroke_not_drawing w Hd). now split.
  - destruct (undoLast_state w) as [k ->]. simpl. split; [|assumption].
    rewrite Forall_forall in *. intros s Hin. apply Hs.
    apply list_elem_of_In. apply In_removelast. now apply list_elem_of_In.
  - destruct (clearCanvas_eq w) as [k E]. unfold state_after. rewrite E.
    simpl. split; [constructor | discriminate].
Qed.

Lemma nonempty_points_reachable w :
  reachable w ->
  Forall (fun s => points s <> []) (strokes w) /\
  (forall cur, currentStroke w = Some cur -> points cur <> []).
Proof.
  induction 1 as [|w o _ [IH1 IH2]].
  - split; [constructor | discriminate].
  - now apply nonempty_points_step.
Qed.

Lemma endStroke_returns w : fst (endStroke w) = Ok tt.
Proof.
  destruct (drawing w) eqn:Hd.
  - destruct (currentStroke w) as [cur|] eqn:Hc.
    + destruct (points cur) as [|q r] eqn:E.
      * unfold endStroke, bind, gets, modify. rewrite Hd. simpl.
        rewrite Hc, E. reflexivity.
      * rewrite (endStroke_commits w cur Hd Hc); [reflexivity | congruence].
    + now rewrite (endStroke_no_stroke w Hd Hc).
  - now rewrite (endStroke_not_drawing w Hd).
Qed.

Lemma undoLast_returns w :
  Forall positive_size (strokes w) -> fst (undoLast w) = Ok tt.
Proof.
  intros Hs. unfold undoLast. rewrite bind_modify.
  destruct (redrawAll_paints (set_strokes (removelast (strokes w)) w))
    as (k & E & _).
  - simpl. rewrite Forall_forall in *. intros s Hin. apply Hs.
    apply list_elem_of_In. apply In_removelast. now apply list_elem_of_In.
  - now rewrite E.
Qed.

(** *** The scenarios of the specification *)

Example scenario_red_stroke :
  let w := run_ops [Begin "red" 4 (Point 0 0); Extend (Point 10 0);
                    Extend (Point 10 10); End] init in
  strokes w = [Stroke "red" 4 [Point 0 0; Point 10 0; Point 10 10]] /\
  bitmap (ctx w) = spec_render (strokes w) None /\
  strokes (run_ops [Undo] w) = [] /\
  bitmap (ctx (run_ops [Undo] w)) = [].
Proof. vm_compute. repeat split. Qed.

(** A click commits a one-point stroke; nothing is painted for it until
    the next full redraw, which shows it as a dot of diameter 2. *)
Example scenario_blue_dot :
  let w := run_ops [Begin "blue" 2 (Point 5 5); End] init in
  strokes w = [Stroke "blue" 2 [Point 5 5]] /\
  bitmap (ctx w) = [] /\
  bitmap (ctx (state_after redrawAll w)) = [spec_dot (Point 5 5) "blue" 2].
Proof. vm_compute. repeat split. Qed.

(** *** The claims about the canvas *)

(** C1, as the code has it.  On committed strokes of positive size,
    [redrawAll] returns, clears whatever the bitmap held and leaves the
    committed strokes drawn in commit order: a stroke of one point as a
    filled dot whose diameter is the stroke's size, a stroke of several
    points as the segments of that width between consecutive points.  It
    changes nothing but the context, and the in-progress stroke is not
    drawn: the surface is the one described by [strokes] alone. *)
Theorem redrawAll_draws_committed_strokes w :
  Forall positive_size (strokes w) ->
  exists k,
    redrawAll w = (Ok tt, set_ctx k w) /\
    bitmap k = spec_render (strokes w) None /\
    forall p c d, exists q, dot_diameter (spec_dot p c d) = Some q /\ q == d.
Proof.
  intros Hs. destruct (redrawAll_paints w Hs) as (k & E & B).
  exists k. split; [exact E|]. split.
  - unfold spec_render. simpl. now rewrite app_nil_r.
  - intros p c d. exists (2 * (d / 2)). split; [reflexivity|]. field.
Qed.

Lemma redrawAll_draws_committed_strokes_witness :
  let w := World true (Some (Stroke "green" 3 [Point 7 7]))
             [Stroke "blue" 2 [Point 5 5];
              Stroke "red" 4 [Point 0 0; Point 10 0; Point 10 10]]
             (Context2d "#000000" "#000000" 1 JoinMiter CapButt []
                        [Filled [Arc 1 1 1 0 2] "old"]) in
  Forall positive_size (strokes w) /\
  exists k,
    redrawAll w = (Ok tt, set_ctx k w) /\
    bitmap k = spec_render (strokes w) None /\
    forall p c d, exists q, dot_diameter (spec_dot p c d) = Some q /\ q == d.
Proof.
  intros w. assert (H : Forall positive_size (strokes w))
    by (repeat constructor).
  split; [exact H | exact (redrawAll_draws_committed_strokes w H)].
Defined.

(** C1, as the specification has it, fails: after [beginStroke] the
    in-progress stroke is a one-point stroke, the specification's render
    shows its dot, and [redrawAll] leaves the surface empty. *)
Lemma redrawAll_omits_in_progress_stroke :
  ~ (forall w, reachable w ->
       bitmap (ctx (state_after redrawAll w))
       = spec_render (strokes w) (inProgress w)).
Proof.
  intros H.
  specialize (H (state_after (run_op (Begin "red" 4 (Point 0 0))) init)
                (reach_step _ _ reach_init)).
  vm_compute in H. discriminate H.
Qed.

(** C2.  From any state, [beginStroke] at [p0] with colour [c] and size
    [sz], then [addPointToStroke] at each of [ps], then [endStroke]:
    [strokes] has grown by exactly one element, appended at the end, whose
    points are [p0 :: ps] in order, with colour [c] and size [sz]; no
    stroke is left in progress. *)
Theorem stroke_commit w c sz p0 ps :
  let w' := run_ops (Begin c sz p0 :: map Extend ps ++ [End]) w in
  strokes w' = strokes w ++ [Stroke c sz (p0 :: ps)] /\
  length (strokes w') = S (length (strokes w)) /\
  currentStroke w' = None /\
  drawing w' = false.
Proof.
  intros w'.
  assert (E : exists k,
             w' = World false None (strokes w ++ [Stroke c sz (p0 :: ps)]) k).
  { subst w'. change (Begin c sz p0 :: map Extend ps ++ [End])
      with ([Begin c sz p0] ++ map Extend ps ++ [End]).
    rewrite !run_ops_app.
    set (w1 := run_ops [Begin c sz p0] w).
    assert (Hw1 : w1 = World true (Some (Stroke c sz [p0])) (strokes w) (ctx w))
      by (destruct p0; reflexivity).
    destruct (extends_run ps w1 (Stroke c sz [p0])) as (k & Ek);
      [now rewrite Hw1 | now rewrite Hw1 | discriminate |].
    rewrite Ek. simpl run_ops. unfold state_after. simpl run_op.
    erewrite endStroke_commits;
      [| now rewrite Hw1 | rewrite Hw1; reflexivity | discriminate].
    exists k. rewrite Hw1. reflexivity. }
  destruct E as [k E]. rewrite E. simpl. repeat split.
  rewrite length_app. simpl. lia.
Qed.

(** C3.  [undoLast] on a list of strokes that ends in [s] leaves exactly
    the strokes before [s], in order and unchanged; on the empty list it
    leaves the empty list; either way [currentStroke] and [drawing], hence
    the in-progress stroke, are as before. *)
Theorem undoLast_removes_last d cur l s k :
  let w1 := state_after undoLast (World d cur (l ++ [s]) k) in
  let w0 := state_after undoLast (World d cur [] k) in
  (strokes w1 = l /\ currentStroke w1 = cur /\ drawing w1 = d /\
   inProgress w1 = inProgress (World d cur (l ++ [s]) k)) /\
  (strokes w0 = [] /\ length (strokes w0) = 0%nat /\
   currentStroke w0 = cur /\ drawing w0 = d /\
   inProgress w0 = inProgress (World d cur [] k)).
Proof.
  intros w1 w0. subst w1 w0.
  destruct (undoLast_state (World d cur (l ++ [s]) k)) as [k1 ->].
  destruct (undoLast_state (World d cur [] k)) as [k0 ->].
  simpl. rewrite removelast_last. repeat split.
Qed.

(** C4.  [clearCanvas] returns, and after it [strokes] is empty and
    [currentStroke] is null, whatever the state before: there is no
    in-progress stroke. *)
Theorem clearCanvas_empties w :
  let w' := state_after clearCanvas w in
  fst (clearCanvas w) = Ok tt /\
  strokes w' = [] /\ currentStroke w' = None /\ inProgress w' = None.
Proof.
  intros w'. subst w'. unfold state_after.
  destruct (clearCanvas_eq w) as [k ->]. simpl. repeat split.
  unfold inProgress. simpl. now destruct (drawing w).
Qed.

(** C5.  In a state whose strokes have a positive size every operation of
    the stroke model returns: none throws.  [addPointToStroke] with no
    stroke in progress ([drawing] unset, or [currentStroke] null) leaves
    the state as it is; [endStroke] with [drawing] unset leaves the state
    as it is, and with [drawing] set but [currentStroke] null only lowers
    the flag, so that [strokes], the in-progress stroke and the surface are
    untouched; [beginStroke] replaces whatever stroke was in progress by
    the one-point stroke and leaves [strokes] and the surface as they
    are. *)
Theorem stroke_operations_total w o d cur l k c sz px py :
  well_sized w ->
  returns (run_op o) w /\
  addPointToStroke px py (World false cur l k) = (Ok tt, World false cur l k) /\
  addPointToStroke px py (World true None l k) = (Ok tt, World true None l k) /\
  endStroke (World false cur l k) = (Ok tt, World false cur l k) /\
  endStroke (World true None l k) = (Ok tt, World false None l k) /\
  beginStroke c sz px py (World d cur l k)
  = (Ok tt, World true (Some (Stroke c sz [Point px py])) l k).
Proof.
  intros [Hs Hc]. split; [| repeat split].
  - exists tt. destruct o as [c' sz' p | p | | |]; simpl run_op.
    + reflexivity.
    + destruct (inProgress w) as [cur'|] eqn:E.
      * unfold inProgress in E. destruct (drawing w) eqn:Hd; [|discriminate].
        destruct (addPointToStroke_extends (x p) (y p) w cur' Hd E) as (k' & ->);
          [right; now apply Hc | reflexivity].
      * now rewrite addPointToStroke_idle.
    + apply endStroke_returns.
    + now apply undoLast_returns.
    + destruct (clearCanvas_eq w) as [k' ->]. reflexivity.
Qed.

Lemma stroke_operations_total_witness :
  let w := World false None [Stroke "blue" 2 [Point 5 5]]
             (Context2d "#000000" "#000000" 1 JoinMiter CapButt [] []) in
  well_sized w /\ returns (run_op Undo) w.
Proof.
  intros w. assert (H : well_sized w).
  { split; [repeat constructor | discriminate]. }
  split; [exact H|].
  exact (proj1 (stroke_operations_total w Undo false None [] (ctx w)
                  "red" 4 0 0 H)).
Defined.

(** C6.  In every state reached from the initial one by the operations of
    the stroke model, every committed stroke has at least one point. *)
Theorem committed_strokes_have_points w :
  reachable w -> Forall (fun s => points s <> []) (strokes w).
Proof. intros H. exact (proj1 (nonempty_points_reachable w H)). Qed.

Lemma committed_strokes_have_points_witness :
  let w := run_ops [Begin "blue" 2 (Point 5 5); End;
                    Begin "red" 4 (Point 0 0); Extend (Point 10 0); End] init in
  reachable w /\ strokes w <> [] /\
  Forall (fun s => points s <> []) (strokes w).
Proof.
  intros w. assert (H : reachable w) by (repeat apply reach_step; apply reach_init).
  split; [exact H|]. split; [vm_compute; discriminate|].
  exact (committed_strokes_have_points w H).
Defined.

(** C7.  On committed strokes of positive size the surface [redrawAll]
    produces is a function of [strokes] alone: two states with the same
    strokes, whatever their contexts, bitmaps and in-progress strokes, are
    redrawn to the same surface, and redrawing a second time reproduces
    it. *)
Theorem redrawAll_deterministic w1 w2 :
  strokes w1 = strokes w2 ->
  Forall positive_size (strokes w1) ->
  fst (redrawAll w1) = Ok tt /\ fst (redrawAll w2) = Ok tt /\
  bitmap (ctx (state_after redrawAll w1))
  = bitmap (ctx (state_after redrawAll w2)) /\
  bitmap (ctx (state_after redrawAll (state_after redrawAll w1)))
  = bitmap (ctx (state_after redrawAll w1)).
Proof.
  intros Heq Hs.
  destruct (redrawAll_paints w1 Hs) as (k1 & E1 & B1).
  assert (Hs2 : Forall positive_size (strokes w2)) by now rewrite <- Heq.
  destruct (redrawAll_paints w2 Hs2) as (k2 & E2 & B2).
  destruct (redrawAll_paints (set_ctx k1 w1) Hs) as (k3 & E3 & B3).
  unfold state_after. rewrite E1, E2. simpl. rewrite E3. simpl.
  repeat split. - now rewrite B1, B2, Heq. - now rewrite B3, B1.
Qed.

Lemma redrawAll_deterministic_witness :
  let l := [Stroke "blue" 2 [Point 5 5];
            Stroke "red" 4 [Point 0 0; Point 10 0; Point 10 10]] in
  let w1 := World false None l
              (Context2d "#000000" "#000000" 1 JoinMiter CapButt [] []) in
  let w2 := World true (Some (Stroke "green" 3 [Point 7 7])) l
              (Context2d "old" "older" 9 JoinBevel CapSquare [MoveTo 1 1]
                         [Filled [Arc 1 1 1 0 2] "old"]) in
  Forall positive_size (strokes w1) /\
  bitmap (ctx (state_after redrawAll w1))
  = bitmap (ctx (state_after redrawAll w2)).
Proof.
  intros l w1 w2. assert (H : Forall positive_size (strokes w1))
    by (repeat constructor).
  split; [exact H|].
  exact (proj1 (proj2 (proj2 (redrawAll_deterministic w1 w2 eq_refl H)))).
Defined.

(** Why the size has to be positive: a width of zero is ignored by the
    context, so a stroke of size zero is drawn with the width left behind
    by whatever was stroked before. *)
Example redrawAll_zero_size_keeps_lineWidth :
  let l := [Stroke "red" 0 [Point 0 0; Point 10 0]] in
  let k0 := Context2d "#000000" "#000000" 1 JoinMiter CapButt [] [] in
  let k9 := Context2d "#000000" "#000000" 9 JoinMiter CapButt [] [] in
  bitmap (ctx (state_after redrawAll (World false None l k0)))
  <> bitmap (ctx (state_after redrawAll (World false None l k9))).
Proof. vm_compute. discriminate. Qed.

End CanvasFacts.

(** ** IEEE 754 doubles *)

Module DoubleFacts.
Import PrimFloat SpecFloat FloatOps FloatAxioms.
Local Open Scope float_scope.

(** *** The order of the specification floats *)

Lemma SFcompare_antisym x y c :
  SFcompare x y = Some c -> SFcompare y x = Some (CompOpp c).
Proof.
  destruct x as [sx|sx| |sx mx ex], y as [sy|sy| |sy my ey]; simpl;
    try discriminate; intros [= <-];
    try (destruct sx); try (destruct sy); try reflexivity.
  - rewrite (Z.compare_antisym ex ey).
    destruct (ex ?= ey)%Z; simpl; try reflexivity.
    now rewrite (Pos.compare_cont_antisym mx my Eq).
  - rewrite (Z.compare_antisym ex ey).
    destruct (ex ?= ey)%Z; simpl; try reflexivity.
    now rewrite (Pos.compare_cont_antisym mx my Eq).
Qed.

Lemma SFcompare_defined x y :
  x <> S754_nan -> y <> S754_nan -> exists c, SFcompare x y = Some c.
Proof. destruct x, y; simpl; intros Hx Hy; try congruence; eauto. Qed.

Lemma SFcompare_Eq_finite x s m e :
  SFcompare x (S754_finite s m e) = Some Eq -> x = S754_finite s m e.
Proof.
  destruct x as [sx|sx| |sx mx ex]; simpl; try discriminate.
  - destruct s; discriminate.
  - destruct sx; discriminate.
  - destruct sx, s; try discriminate; intros H; injection H as H;
      destruct (ex ?= e)%Z eqn:E; try discriminate;
      apply Z.compare_eq in E; subst ex.
    + apply (f_equal CompOpp) in H. rewrite CompOpp_involutive in H. simpl in H.
      apply Pos.compare_eq in H. now subst.
    + apply Pos.compare_eq in H. now subst.
Qed.

(** *** NaN *)

Lemma Prim2SF_nan x : is_nan x = true -> Prim2SF x = S754_nan.
Proof. intros H. unfold Prim2SF. now rewrite H. Qed.

Lemma Prim2SF_not_nan x : is_nan x = false -> Prim2SF x <> S754_nan.
Proof.
  intros H. unfold Prim2SF. rewrite H.
  destruct (is_zero x); [discriminate|].
  destruct (is_infinity x); [discriminate|].
  destruct (Z.frexp x) as [r e].
  destruct (shr_fexp _ _ _ _ _) as [m e'].
  destruct (shr_m m); discriminate.
Qed.

Lemma is_nan_Prim2SF x : Prim2SF x = S754_nan -> is_nan x = true.
Proof.
  intros H. destruct (is_nan x) eqn:E; [reflexivity|].
  now destruct (Prim2SF_not_nan x E).
Qed.

(** A comparison with NaN is false. *)
Lemma leb_nan_l x y : is_nan x = true -> (x <=? y) = false.
Proof. intros H. now rewrite leb_spec, (Prim2SF_nan x H). Qed.

Lemma leb_nan_r x y : is_nan y = true -> (x <=? y) = false.
Proof.
  intros H. rewrite leb_spec, (Prim2SF_nan y H). unfold SFleb.
  now destruct (Prim2SF x).
Qed.

(** NaN is absorbing for the sum. *)
Lemma is_nan_add_l x y : is_nan x = true -> is_nan (x + y) = true.
Proof.
  intros H. apply is_nan_Prim2SF. now rewrite add_spec, (Prim2SF_nan x H).
Qed.

(** *** The order of the doubles *)

(** On numbers the order is total: what is not below is strictly above. *)
Lemma leb_false_ltb x y :
  is_nan x = false -> is_nan y = false -> (x <=? y) = false -> (y <? x) = true.
Proof.
  intros Hx Hy. rewrite leb_spec, ltb_spec. unfold SFleb, SFltb.
  destruct (SFcompare_defined _ _ (Prim2SF_not_nan x Hx) (Prim2SF_not_nan y Hy))
    as [c Hc].
  rewrite Hc, (SFcompare_antisym _ _ _ Hc). now destruct c.
Qed.

Lemma ltb_leb x y : (x <? y) = true -> (x <=? y) = true.
Proof.
  rewrite leb_spec, ltb_spec. unfold SFleb, SFltb.
  now destruct (SFcompare (Prim2SF x) (Prim2SF y)) as [[| |]|].
Qed.

Lemma leb_true_not_nan x y :
  (x <=? y) = true -> is_nan x = false /\ is_nan y = false.
Proof.
  intros H. split.
  - destruct (is_nan x) eqn:E; [|reflexivity].
    now rewrite (leb_nan_l x y E) in H.
  - destruct (is_nan y) eqn:E; [|reflexivity].
    now rewrite (leb_nan_r x y E) in H.
Qed.

(** Two doubles below each other are the same double when one of them is
    finite and not zero. *)
Lemma leb_antisym_finite x y s m e :
  Prim2SF y = S754_finite s m e ->
  (x <=? y) = true -> (y <=? x) = true -> x = y.
Proof.
  intros Hy. rewrite !leb_spec. unfold SFleb. intros H1 H2.
  destruct (SFcompare (Prim2SF x) (Prim2SF y)) as [c|] eqn:Hc; [|discriminate].
  rewrite (SFcompare_antisym _ _ _ Hc) in H2.
  destruct c; simpl in H1, H2; try discriminate.
  apply Prim2SF_inj. rewrite Hy in *. now apply SFcompare_Eq_finite.
Qed.

(** *** Finite doubles *)

Lemma is_finite_Prim2SF x :
  is_finite x = true ->
  (exists s, Prim2SF x = S754_zero s) \/
  (exists s m e, Prim2SF x = S754_finite s m e).
Proof.
  unfold is_finite, is_infinity. intros H.
  apply negb_true_iff, orb_false_iff in H. destruct H as [Hn Hi].
  rewrite eqb_spec, abs_spec in Hi.
  pose proof (Prim2SF_not_nan x Hn) as Hx.
  destruct (Prim2SF x) as [s|s| |s m e]; eauto.
  - discriminate Hi.
  - congruence.
Qed.

(** A finite double minus itself is zero. *)
Lemma sub_self x :
  is_finite x = true -> Prim2SF (x - x) = S754_zero false.
Proof.
  intros H. rewrite sub_spec.
  destruct (is_finite_Prim2SF x H) as [[s ->] | (s & m & e & ->)].
  - now destruct s.
  - unfold SF64sub, SFsub. cbv zeta. now rewrite Z.sub_diag.
Qed.

(** A finite double times zero is zero; zero over a finite double that is
    not zero is zero; a finite double that is not zero plus zero is
    itself. *)
Lemma mul_zero x y s :
  is_finite x = true -> Prim2SF y = S754_zero s ->
  exists s', Prim2SF (x * y) = S754_zero s'.
Proof.
  intros H Hy. rewrite mul_spec, Hy.
  destruct (is_finite_Prim2SF x H) as [[sx ->] | (sx & m & e & ->)];
    simpl; eauto.
Qed.

Lemma div_zero x y s sy m e :
  Prim2SF x = S754_zero s -> Prim2SF y = S754_finite sy m e ->
  exists s', Prim2SF (x / y) = S754_zero s'.
Proof. intros Hx Hy. rewrite div_spec, Hx, Hy. simpl. eauto. Qed.

Lemma add_zero x y sx m e s :
  Prim2SF x = S754_finite sx m e -> Prim2SF y = S754_zero s -> x + y = x.
Proof.
  intros Hx Hy. apply Prim2SF_inj. now rewrite add_spec, Hx, Hy.
Qed.

End DoubleFacts.

(** ** The SVG bounce animation *)

Module SvgAnimFacts.
Import PrimFloat SpecFloat FloatOps FloatAxioms.
Import SvgAnim DoubleFacts.
Local Open Scope float_scope.

(** The position and direction [svgAnimate] leaves: the bounce of the
    tentative position. *)
Lemma svgAnimate_motion v ts s :
  svgX (svgAnimate v ts s) = fst (bounce (tentative v ts s) (svgDir s)) /\
  svgDir (svgAnimate v ts s) = snd (bounce (tentative v ts s) (svgDir s)).
Proof.
  unfold svgAnimate, tentative, elapsed.
  destruct (falsy (lastTimestamp s)); cbn [lastTimestamp set_lastTimestamp];
    destruct (svgPlaying s) eqn:E; cbn; rewrite ?E; cbn; split; reflexivity.
Qed.

Lemma bounce_cases px dir :
  is_nan px = false ->
  ((svgMax <=? px) = true /\ bounce px dir = (svgMax, -1)) \/
  ((px <? svgMax) = true /\ (px <=? svgMin) = true /\
   bounce px dir = (svgMin, 1)) \/
  ((svgMin <? px) = true /\ (px <? svgMax) = true /\ bounce px dir = (px, dir)).
Proof.
  intros Hn. unfold bounce.
  destruct (svgMax <=? px) eqn:Hmax; [now left|].
  assert (H1 : (px <? svgMax) = true) by now apply leb_false_ltb.
  destruct (px <=? svgMin) eqn:Hmin; [right; left; auto|].
  right; right. repeat split; [|exact H1]. now apply leb_false_ltb.
Qed.

(** Both tests of the bounce fail on NaN, which is kept. *)
Lemma bounce_nan px dir : is_nan px = true -> bounce px dir = (px, dir).
Proof.
  intros Hn. unfold bounce.
  now rewrite (leb_nan_r svgMax px Hn), (leb_nan_l px svgMin Hn).
Qed.

Lemma bounce_in_range px dir :
  is_nan px = false -> in_range (fst (bounce px dir)) = true.
Proof.
  intros Hn.
  destruct (bounce_cases px dir Hn) as [[_ ->] | [(_ & _ & ->) | (H1 & H2 & ->)]];
    [reflexivity | reflexivity |].
  unfold in_range. cbn [fst]. now rewrite (ltb_leb _ _ H1), (ltb_leb _ _ H2).
Qed.

Lemma svgAnimate_schedule v ts s :
  svgPlaying (svgAnimate v ts s) = svgPlaying s /\
  frameCallbacks (svgAnimate v ts s)
  = (if svgPlaying s then frameCallbacks s ++ [nextHandle s]
     else frameCallbacks s) /\
  svgAnimReq (svgAnimate v ts s)
  = (if svgPlaying s then Some (nextHandle s) else svgAnimReq s).
Proof.
  unfold svgAnimate.
  destruct (falsy (lastTimestamp s)); simpl;
    destruct (svgPlaying s) eqn:E; simpl; rewrite ?E; repeat split.
Qed.

Lemma startSvg_running s : svgPlaying s = true -> startSvg s = s.
Proof. intros H. unfold startSvg. now rewrite H. Qed.

Lemma startSvg_stopped s :
  svgPlaying s = false ->
  startSvg s = Anim (Some (nextHandle s)) (svgX s) (svgDir s) true None
                    (translateX s) (frameCallbacks s ++ [nextHandle s])
                    (Pos.succ (nextHandle s)).
Proof. intros H. unfold startSvg. now rewrite H. Qed.

Lemma pauseSvgAnim_stopped s :
  svgPlaying s = false -> svgAnimReq s = None -> pauseSvgAnim s = s.
Proof.
  destruct s; simpl; intros -> ->. reflexivity.
Qed.

Lemma cancel_only h : filter (fun h' : positive => h' <> h) [h] = [].
Proof.
  rewrite filter_cons, filter_nil. now destruct (decide (h <> h)).
Qed.

Lemma cancel_removes h (l : list positive) :
  ~ In h (filter (fun h' : positive => h' <> h) l).
Proof.
  intros H. apply list_elem_of_In, list_elem_of_filter in H. now destruct H.
Qed.

(** The invariant of the loop: while running, exactly one frame is
    pending and [svgAnimReq] holds its handle; while stopped, no frame is
    pending and [svgAnimReq] is null. *)
Lemma loop_invariant s :
  reachable s ->
  (svgPlaying s = true /\
   exists h, svgAnimReq s = Some h /\ frameCallbacks s = [h]) \/
  (svgPlaying s = false /\ svgAnimReq s = None /\ frameCallbacks s = []).
Proof.
  induction 1 as [|s e _ IH].
  - left. split; [reflexivity|]. now exists 1%positive.
  - destruct e as [| | v ts]; simpl step.
    + destruct IH as [(Hp & h & Hr & Hc) | (Hp & Hr & Hc)].
      * rewrite (startSvg_running s Hp). left. eauto.
      * rewrite (startSvg_stopped s Hp). left. simpl. split; [reflexivity|].
        exists (nextHandle s). now rewrite Hc.
    + right. destruct IH as [(Hp & h & Hr & Hc) | (Hp & Hr & Hc)].
      * unfold pauseSvgAnim. simpl. rewrite Hr. simpl. rewrite Hc.
        now rewrite cancel_only.
      * now rewrite (pauseSvgAnim_stopped s Hp Hr).
    + destruct IH as [(Hp & h & Hr & Hc) | (Hp & Hr & Hc)].
      * left. unfold runFrame. rewrite Hc. simpl fold_left.
        destruct (svgAnimate_schedule v ts (set_frameCallbacks [] s))
          as (E1 & E2 & E3).
        simpl in E1, E2, E3. rewrite Hp in *. rewrite E1, E2, E3.
        split; [reflexivity|]. now exists (nextHandle s).
      * right. unfold runFrame. rewrite Hc. simpl. auto.
Qed.

Lemma pauseSvgAnim_idempotent s :
  pauseSvgAnim (pauseSvgAnim s) = pauseSvgAnim s.
Proof. destruct s as [[h|] px dir b t tx l n]; reflexivity. Qed.

Lemma startSvg_idempotent s : startSvg (startSvg s) = startSvg s.
Proof.
  destruct (svgPlaying s) eqn:E.
  - now rewrite !(startSvg_running s E).
  - rewrite (startSvg_stopped s E). now apply startSvg_running.
Qed.

Lemma pauseSvgAnim_cancels s :
  svgPlaying (pauseSvgAnim s) = false /\
  svgAnimReq (pauseSvgAnim s) = None /\
  match svgAnimReq s with
  | Some h => ~ In h (frameCallbacks (pauseSvgAnim s))
  | None => frameCallbacks (pauseSvgAnim s) = frameCallbacks s
  end.
Proof.
  destruct s as [[h|] px dir b t tx l n]; unfold pauseSvgAnim; simpl;
    repeat split.
  apply cancel_removes.
Qed.

(** *** The claims about the animation *)

(** C8.  In every state the animation reaches, the loop is in one of two
    states: running, with exactly one frame pending under the handle kept
    in [svgAnimReq], or stopped, with no frame pending and [svgAnimReq]
    null.  [pauseSvgAnim] lowers [svgPlaying] and cancels the pending
    frame; [startSvg] schedules a frame only when the loop was stopped;
    [startSvg] while running and [pauseSvgAnim] while stopped change
    nothing, and each is idempotent; [svgAnimate] schedules the next frame
    exactly when [svgPlaying] is set and never changes the flag. *)
Theorem animation_loop_two_states s v ts :
  reachable s ->
  ((loop_state_of s = Running /\
    exists h, svgAnimReq s = Some h /\ frameCallbacks s = [h]) \/
   (loop_state_of s = Stopped /\
    svgAnimReq s = None /\ frameCallbacks s = [])) /\
  (loop_state_of (pauseSvgAnim s) = Stopped /\
   svgAnimReq (pauseSvgAnim s) = None /\
   frameCallbacks (pauseSvgAnim s) = []) /\
  (loop_state_of (startSvg s) = Running /\
   frameCallbacks (startSvg s)
   = match loop_state_of s with
     | Running => frameCallbacks s
     | Stopped => [nextHandle s]
     end) /\
  match loop_state_of s with
  | Running => startSvg s = s
  | Stopped => pauseSvgAnim s = s
  end /\
  pauseSvgAnim (pauseSvgAnim s) = pauseSvgAnim s /\
  startSvg (startSvg s) = startSvg s /\
  svgPlaying (svgAnimate v ts s) = svgPlaying s /\
  frameCallbacks (svgAnimate v ts s)
  = (if svgPlaying s then frameCallbacks s ++ [nextHandle s]
     else frameCallbacks s).
Proof.
  intros Hr.
  pose proof (loop_invariant s Hr) as Hs.
  pose proof (loop_invariant _ (reach_event s Pause Hr)) as Hp.
  pose proof (loop_invariant _ (reach_event s Play Hr)) as Hq.
  simpl step in Hp, Hq.
  destruct (pauseSvgAnim_cancels s) as (Hp1 & Hp2 & _).
  destruct (svgAnimate_schedule v ts s) as (Hf1 & Hf2 & _).
  unfold loop_state_of.
  repeat match goal with |- _ /\ _ => split end.
  - destruct Hs as [(E & H) | (E & H)]; rewrite E; [left | right]; auto.
  - now rewrite Hp1.
  - exact Hp2.
  - destruct Hp as [(E & _) | (_ & _ & E)]; [congruence | exact E].
  - destruct Hs as [(E & _) | (E & _)].
    + now rewrite (startSvg_running s E), E.
    + now rewrite (startSvg_stopped s E).
  - destruct Hs as [(E & _) | (E & _ & Hc)]; rewrite E.
    + now rewrite (startSvg_running s E).
    + rewrite (startSvg_stopped s E). simpl. now rewrite Hc.
  - destruct Hs as [(E & _) | (E & Hn & _)]; rewrite E.
    + now apply startSvg_running.
    + now apply pauseSvgAnim_stopped.
  - apply pauseSvgAnim_idempotent.
  - apply startSvg_idempotent.
  - exact Hf1.
  - exact Hf2.
Qed.

Lemma animation_loop_two_states_witness :
  let s := step Pause (step (Frame 1 1016) (step (Frame 1 16) init)) in
  reachable s /\ loop_state_of s = Stopped /\ pauseSvgAnim s = s /\
  loop_state_of (startSvg s) = Running.
Proof.
  intros s.
  assert (H : reachable s) by (repeat apply reach_event; apply reach_boot).
  pose proof (animation_loop_two_states s 1 2016 H)
    as (_ & _ & (Hplay & _) & Hnoop & _).
  split; [exact H|]. split; [reflexivity|]. split; [exact Hnoop | exact Hplay].
Defined.

(** C9, as the code has it.  When the position [svgAnimate] computes
    before the bounce, [svgX + svgDir * velocity * dt], is a number, the
    call leaves [svgX] in [[svgMin, svgMax]], that is [[30, 770]], whatever
    the position was before: a computed position at or beyond [svgMax] is
    replaced by [svgMax] and the direction set to [-1]; one at or below
    [svgMin] is replaced by [svgMin] and the direction set to [1]; one
    strictly between the bounds is kept, with the direction unchanged. *)
Theorem svgAnimate_clamps_position v ts s :
  is_nan (tentative v ts s) = false ->
  let px := tentative v ts s in
  let s' := svgAnimate v ts s in
  svgMin = 30 /\ svgMax = 770 /\
  in_range (svgX s') = true /\
  (((svgMax <=? px) = true /\ svgX s' = svgMax /\ svgDir s' = -1) \/
   ((px <? svgMax) = true /\ (px <=? svgMin) = true /\
    svgX s' = svgMin /\ svgDir s' = 1) \/
   ((svgMin <? px) = true /\ (px <? svgMax) = true /\
    svgX s' = px /\ svgDir s' = svgDir s)).
Proof.
  intros Hn px s'. subst s'.
  destruct (svgAnimate_motion v ts s) as [-> ->]. fold px.
  split; [reflexivity|]. split; [reflexivity|].
  split; [now apply bounce_in_range|].
  destruct (bounce_cases px (svgDir s) Hn)
    as [[H ->] | [(H1 & H2 & ->) | (H1 & H2 & ->)]]; cbn [fst snd]; auto 10.
Qed.

Lemma svgAnimate_clamps_position_witness :
  let s := step (Frame 1 16) init in
  is_nan (tentative 2 9016 s) = false /\
  tentative 2 9016 s = 1850 /\
  svgX (svgAnimate 2 9016 s) = svgMax /\ svgDir (svgAnimate 2 9016 s) = -1 /\
  in_range (svgX (svgAnimate 2 9016 s)) = true.
Proof.
  intros s.
  assert (Hn : is_nan (tentative 2 9016 s) = false) by reflexivity.
  destruct (svgAnimate_clamps_position 2 9016 s Hn) as (_ & _ & Hr & _).
  split; [exact Hn|]. split; [reflexivity|]. split; [reflexivity|].
  split; [reflexivity | exact Hr].
Defined.

(** C9, as the claim has it, fails on doubles.  On the first frame the
    elapsed time is [0]; with a speed factor of [2^1020] the velocity
    [100 * speedFactor] overflows to [Infinity], [Infinity * 0] is [NaN],
    and [svgX] becomes [NaN], which both tests of the bounce let through:
    the elapsed time and the speed factor are non-negative and [svgX] is
    not in [[30, 770]]. *)
Lemma svgAnimate_leaves_range_on_overflow :
  ~ (forall v ts s,
       (0 <=? v) = true -> (0 <=? elapsed ts s) = true ->
       in_range (svgX (svgAnimate v ts s)) = true).
Proof.
  intros H. specialize (H 0x1p1020 16 init eq_refl eq_refl).
  vm_compute in H. discriminate H.
Qed.

End SvgAnimFacts.

(** ** The product listing *)

Module ProductsFacts.
Import Products.
Local Open Scope js_scope.

Lemma array_elements_lookup l a s :
  heap s !! l = Some a -> array_elements l s = (Ok a, s).
Proof.
  intros H. unfold array_elements. rewrite bind_gets. cbv beta. now rewrite H.
Qed.

Lemma array_new_eq a s :
  array_new a s
  = (Ok (fresh (dom (heap s))),
     set_heap (<[fresh (dom (heap s)) := a]> (heap s)) s).
Proof. reflexivity. Qed.

Lemma fresh_not_allocated (h : gmap loc (list product)) : h !! fresh (dom h) = None.
Proof. apply not_elem_of_dom. apply is_fresh. Qed.

Lemma render_loop a : forall s,
  for_of a (fun p => modify (fun s => set_innerHTML (innerHTML s ++ [p]) s)) s
  = (Ok tt, set_innerHTML (innerHTML s ++ a) s).
Proof.
  induction a as [|p a IH]; intros s; simpl.
  - unfold ret. rewrite app_nil_r. now destruct s.
  - rewrite bind_modify. rewrite IH. simpl. now rewrite <- app_assoc.
Qed.

Lemma renderProducts_eq l a s :
  heap s !! l = Some a ->
  renderProducts l s = (Ok tt, set_innerHTML a s).
Proof.
  intros H. unfold renderProducts. rewrite bind_modify. cbv beta.
  rewrite (bind_ok _ _ _ _ _ (array_elements_lookup l a (set_innerHTML [] s) H)).
  now rewrite render_loop.
Qed.

(** Sorting a copy: what [[...allProducts].sort(cmp)] followed by
    [renderProducts] does to the page. *)
Lemma sort_copy_eq cmp s l a :
  allProducts s = Some l -> heap s !! l = Some a ->
  (a0 ← read_allProducts ;
   c ← spread a0 ;
   sorted ← array_sort cmp c ;
   renderProducts sorted) s
  = (Ok tt, Page (<[fresh (dom (heap s)) := sorted_by cmp a]> (heap s))
                 (Some l) (sorted_by cmp a)).
Proof.
  intros Ha Hl. unfold read_allProducts. rewrite bind_ok with (a := l) (s' := s).
  2:{ rewrite bind_gets. cbv beta. now rewrite Ha. }
  unfold spread.
  rewrite bind_ok with (a := fresh (dom (heap s)))
    (s' := set_heap (<[fresh (dom (heap s)) := a]> (heap s)) s).
  2:{ rewrite (bind_ok _ _ _ _ _ (array_elements_lookup l a s Hl)).
      apply array_new_eq. }
  set (l1 := fresh (dom (heap s))).
  rewrite bind_ok with (a := l1)
    (s' := set_heap (<[l1 := sorted_by cmp a]> (heap s)) s).
  2:{ unfold array_sort.
      rewrite bind_ok with (a := a)
        (s' := set_heap (<[l1 := a]> (heap s)) s).
      2:{ apply array_elements_lookup. simpl. apply lookup_insert_eq. }
      rewrite bind_gets. cbv beta. rewrite bind_modify. simpl.
      unfold ret, set_heap. simpl. now rewrite insert_insert_eq. }
  rewrite (renderProducts_eq l1 (sorted_by cmp a)).
  - unfold set_innerHTML, set_heap. simpl. now rewrite Ha.
  - simpl. apply lookup_insert_eq.
Qed.

Lemma filterCategory_eq cat s l a :
  allProducts s = Some l -> heap s !! l = Some a ->
  filterCategory cat s
  = (Ok tt,
     Page (<[fresh (dom (heap s)) :=
              List.filter (fun p => String.eqb (category p) cat) a]> (heap s))
          (Some l)
          (List.filter (fun p => String.eqb (category p) cat) a)).
Proof.
  intros Ha Hl. unfold filterCategory, read_allProducts.
  rewrite bind_ok with (a := l) (s' := s).
  2:{ rewrite bind_gets. cbv beta. now rewrite Ha. }
  unfold array_filter.
  set (f := List.filter _ a).
  rewrite bind_ok with (a := fresh (dom (heap s)))
    (s' := set_heap (<[fresh (dom (heap s)) := f]> (heap s)) s).
  2:{ rewrite (bind_ok _ _ _ _ _ (array_elements_lookup l a s Hl)).
      apply array_new_eq. }
  rewrite (renderProducts_eq (fresh (dom (heap s))) f).
  - unfold set_innerHTML, set_heap. simpl. now rewrite Ha.
  - simpl. apply lookup_insert_eq.
Qed.

(** Every array that existed before is untouched by a write to a fresh
    reference. *)
Lemma fresh_insert_frame (h : gmap loc (list product)) v l :
  is_Some (h !! l) -> <[fresh (dom h) := v]> h !! l = h !! l.
Proof.
  intros Hl. apply lookup_insert_ne. intros E. subst l.
  rewrite fresh_not_allocated in Hl. now destruct Hl.
Qed.

(** *** The insertion sort *)

Lemma insert_by_perm cmp p a : Permutation (insert_by cmp p a) (p :: a).
Proof.
  induction a as [|q a IH]; simpl; [reflexivity|].
  destruct (Qle_bool (cmp p q) 0); [reflexivity|].
  rewrite IH. apply perm_swap.
Qed.

Lemma sorted_by_perm cmp a : Permutation (sorted_by cmp a) a.
Proof.
  induction a as [|p a IH]; simpl; [reflexivity|].
  unfold sorted_by in *. simpl. rewrite insert_by_perm. now constructor.
Qed.

Section SortedBy.
Variable cmp : product -> product -> number.
Variable R : product -> product -> Prop.
Hypothesis cmp_le : forall p q, Qle_bool (cmp p q) 0 = true -> R p q.
Hypothesis cmp_gt : forall p q, Qle_bool (cmp p q) 0 = false -> R q p.

Lemma insert_by_sorted p a : Sorted R a -> Sorted R (insert_by cmp p a).
Proof.
  induction 1 as [|q a Hs IH Hh]; simpl.
  - repeat constructor.
  - destruct (Qle_bool (cmp p q) 0) eqn:E.
    + constructor; [now constructor|]. constructor. now apply cmp_le.
    + constructor; [exact IH|].
      destruct Hh as [|r a Hr]; simpl.
      * constructor. now apply cmp_gt.
      * destruct (Qle_bool (cmp p r) 0); constructor;
          [now apply cmp_gt | exact Hr].
Qed.

Lemma sorted_by_sorted a : Sorted R (sorted_by cmp a).
Proof.
  induction a as [|p a IH]; [constructor|].
  unfold sorted_by in *. simpl. now apply insert_by_sorted.
Qed.
End SortedBy.

Lemma price_low_sorted a :
  Sorted (fun p q => price p <= price q)
         (sorted_by (fun p q => price p - price q) a).
Proof.
  apply sorted_by_sorted; intros p q H.
  - apply Qle_bool_iff in H. lra.
  - assert (~ price p - price q <= 0) by (rewrite <- Qle_bool_iff; congruence).
    lra.
Qed.

Lemma price_high_sorted a :
  Sorted (fun p q => price q <= price p)
         (sorted_by (fun p q => price q - price p) a).
Proof.
  apply sorted_by_sorted; intros p q H.
  - apply Qle_bool_iff in H. lra.
  - assert (~ price q - price p <= 0) by (rewrite <- Qle_bool_iff; congruence).
    lra.
Qed.

Lemma filter_category_spec cat a p :
  In p (List.filter (fun q => String.eqb (category q) cat) a)
  <-> In p a /\ category p = cat.
Proof. rewrite filter_In. now rewrite String.eqb_eq. Qed.

(** *** The claim about the product listing *)

(** C10.  With [allProducts] bound to an array of elements [a]:
    [sortPriceLow], [sortPriceHigh] and [filterCategory] return, leave
    [allProducts] bound to the same array with the same elements in the
    same order, and leave every other array that existed untouched.  The
    two sorts render a new array that is a rearrangement of [a] in
    ascending, respectively descending, order of price; [filterCategory]
    renders a new array that holds, in the order of [a], exactly the
    products of [a] whose category is the given one. *)
Theorem listing_leaves_allProducts_unchanged s l a cat :
  allProducts s = Some l -> heap s !! l = Some a ->
  let lo := state_after sortPriceLow s in
  let hi := state_after sortPriceHigh s in
  let fi := state_after (filterCategory cat) s in
  let fresh_array := fresh (dom (heap s)) in
  heap s !! fresh_array = None /\
  (fst (sortPriceLow s) = Ok tt /\
   allProducts lo = Some l /\ heap lo !! l = Some a /\
   (forall l', is_Some (heap s !! l') -> heap lo !! l' = heap s !! l') /\
   heap lo !! fresh_array = Some (innerHTML lo) /\
   Permutation (innerHTML lo) a /\
   Sorted (fun p q => price p <= price q) (innerHTML lo)) /\
  (fst (sortPriceHigh s) = Ok tt /\
   allProducts hi = Some l /\ heap hi !! l = Some a /\
   (forall l', is_Some (heap s !! l') -> heap hi !! l' = heap s !! l') /\
   heap hi !! fresh_array = Some (innerHTML hi) /\
   Permutation (innerHTML hi) a /\
   Sorted (fun p q => price q <= price p) (innerHTML hi)) /\
  (fst (filterCategory cat s) = Ok tt /\
   allProducts fi = Some l /\ heap fi !! l = Some a /\
   (forall l', is_Some (heap s !! l') -> heap fi !! l' = heap s !! l') /\
   heap fi !! fresh_array = Some (innerHTML fi) /\
   innerHTML fi = List.filter (fun p => String.eqb (category p) cat) a /\
   forall p, In p (innerHTML fi) <-> In p a /\ category p = cat).
Proof.
  intros Ha Hl lo hi fi fresh_array. subst lo hi fi fresh_array.
  unfold state_after, sortPriceLow, sortPriceHigh.
  rewrite !(sort_copy_eq _ s l a Ha Hl), (filterCategory_eq cat s l a Ha Hl).
  simpl. split; [apply fresh_not_allocated|].
  assert (Hfr : forall v, <[fresh (dom (heap s)) := v]> (heap s) !! l = Some a).
  { intros v. rewrite fresh_insert_frame; eauto. }
  repeat match goal with |- _ /\ _ => split end;
    try reflexivity; try apply Hfr; try apply lookup_insert_eq;
    try (intros l' Hl'; now apply fresh_insert_frame).
  - apply sorted_by_perm.
  - apply price_low_sorted.
  - apply sorted_by_perm.
  - apply price_high_sorted.
  - apply filter_category_spec.
Qed.

Lemma listing_leaves_allProducts_unchanged_witness :
  let a := [Product "mug" 12 "home" "mug.png";
            Product "ring" 40 "jewelery" "ring.png";
            Product "lamp" 7 "home" "lamp.png"] in
  let s := state_after (fetchProducts a) (Page ∅ None []) in
  let l := fresh (dom (∅ : gmap loc (list product))) in
  allProducts s = Some l /\ heap s !! l = Some a /\
  heap (state_after sortPriceLow s) !! l = Some a /\
  heap (state_after sortPriceHigh s) !! l = Some a /\
  heap (state_after (filterCategory "home") s) !! l = Some a.
Proof.
  intros a s l.
  assert (Ha : allProducts s = Some l) by reflexivity.
  assert (Hl : heap s !! l = Some a) by (vm_compute; reflexivity).
  pose proof (listing_leaves_allProducts_unchanged s l a "home" Ha Hl)
    as (_ & (_ & _ & Hlo & _) & (_ & _ & Hhi & _) & (_ & _ & Hfi & _)).
  split; [exact Ha|]. split; [exact Hl|].
  split; [exact Hlo|]. split; [exact Hhi | exact Hfi].
Defined.

Example sortPriceLow_renders_ascending :
  let a := [Product "mug" 12 "home" "mug.png";
            Product "ring" 40 "jewelery" "ring.png";
            Product "lamp" 7 "home" "lamp.png"] in
  let s := state_after (fetchProducts a) (Page ∅ None []) in
  map title (innerHTML s) = ["mug"; "ring"; "lamp"] /\
  map title (innerHTML (state_after sortPriceLow s)) = ["lamp"; "mug"; "ring"] /\
  map title (innerHTML (state_after sortPriceHigh s)) = ["ring"; "mug"; "lamp"] /\
  map title (innerHTML (state_after (filterCategory "home") s)) = ["mug"; "lamp"].
Proof. vm_compute. repeat split. Qed.

(** Before the fetch has stored [allProducts] the handlers throw. *)
Example sortPriceLow_before_fetch :
  sortPriceLow (Page ∅ None []) = (Throw ReferenceError, Page ∅ None []).
Proof. reflexivity. Qed.

End ProductsFacts.

(** ** Gestures on the canvas *)

Module GestureFacts.
Import Canvas CanvasFacts CanvasUI.
Local Open Scope js_scope.

(** The paint [drawSegment] adds: the width is the brush size when that is
    positive and the width the context had before otherwise. *)
Lemma drawSegment_bitmap p1 p2 c sz w :
  exists k,
    drawSegment p1 p2 c sz w = (Ok tt, set_ctx k w) /\
    bitmap k
    = bitmap (ctx w)
      ++ [Stroked [MoveTo (x p1) (y p1); LineTo (x p2) (y p2)] c
                  (if Qlt_le_dec 0 sz then sz else lineWidth (ctx w))
                  JoinRound CapRound].
Proof.
  unfold drawSegment, ctx_set_lineWidth.
  unfold bind, on_ctx, modify; simpl.
  destruct (Qlt_le_dec 0 sz); eexists; split; reflexivity.
Qed.

Lemma addPointToStroke_segment px py w cur pts a :
  drawing w = true -> currentStroke w = Some cur -> points cur = pts ++ [a] ->
  exists k,
    addPointToStroke px py w
    = (Ok tt, set_ctx k (set_currentStroke
         (Some (Stroke (color cur) (size cur) (points cur ++ [Point px py]))) w))
    /\
    bitmap k
    = bitmap (ctx w)
      ++ [Stroked [MoveTo (x a) (y a); LineTo px py] (color cur)
                  (if Qlt_le_dec 0 (size cur) then size cur
                   else lineWidth (ctx w))
                  JoinRound CapRound].
Proof.
  intros Hd Hc Hp. unfold addPointToStroke.
  rewrite bind_gets; cbv beta. rewrite bind_gets; cbv beta.
  rewrite Hd, Hc. rewrite bool_decide_eq_true_2 by eauto.
  cbn [negb orb]. unfold deref. rewrite bind_ret; cbv beta zeta.
  rewrite bind_modify; cbv beta. cbn [points color size].
  set (w1 := set_currentStroke _ w). rewrite Hp.
  assert (Hlen : length ((pts ++ [a]) ++ [Point px py]) = S (S (length pts)))
    by (rewrite !length_app; simpl; lia).
  rewrite Hlen. change (2 <=? S (S (length pts)))%nat with true. cbv iota.
  assert (H1 : ((pts ++ [a]) ++ [Point px py]) !! (S (S (length pts)) - 2)%nat
               = Some a).
  { rewrite <- app_assoc. apply list_lookup_middle. lia. }
  assert (H2 : ((pts ++ [a]) ++ [Point px py]) !! (S (S (length pts)) - 1)%nat
               = Some (Point px py)).
  { apply list_lookup_middle. rewrite length_app. simpl. lia. }
  rewrite (bind_ok _ _ _ _ _ (index_lookup _ _ _ _ H1)).
  rewrite (bind_ok _ _ _ _ _ (index_lookup _ _ _ _ H2)).
  apply (drawSegment_bitmap a (Point px py) (color cur) (size cur) w1).
Qed.

Lemma nonempty_snoc {A} (l : list A) :
  l <> [] -> exists pts a, l = pts ++ [a].
Proof.
  intros H. destruct (exists_last H) as (pts & a & E). now exists pts, a.
Qed.

Lemma spec_segments_snoc pts a b c sz :
  spec_segments ((pts ++ [a]) ++ [b]) c sz
  = spec_segments (pts ++ [a]) c sz ++ [spec_segment a b c sz].
Proof.
  induction pts as [|p [|q r] IH]; [reflexivity | reflexivity |].
  change (spec_segments (((p :: q :: r) ++ [a]) ++ [b]) c sz)
    with (spec_segment p q c sz :: spec_segments (((q :: r) ++ [a]) ++ [b]) c sz).
  rewrite IH. reflexivity.
Qed.

(** The extensions of one gesture with a positive brush size: the surface
    gains the segments that continue the stroke. *)
Lemma extends_run_bitmap ps : forall w cur pts a,
  drawing w = true -> currentStroke w = Some cur -> points cur = pts ++ [a] ->
  0 < size cur ->
  exists k,
    run_ops (map Extend ps) w
    = World true (Some (Stroke (color cur) (size cur) (points cur ++ ps)))
            (strokes w) k /\
    bitmap k = bitmap (ctx w) ++ spec_segments (a :: ps) (color cur) (size cur).
Proof.
  induction ps as [|p ps IH]; intros w cur pts a Hd Hc Hp Hsz.
  - exists (ctx w). simpl. rewrite !app_nil_r. split; [|reflexivity].
    destruct w as [d c l k]. simpl in *. subst. now destruct cur.
  - destruct p as [px py].
    destruct (addPointToStroke_segment px py w cur pts a Hd Hc Hp)
      as (k1 & E1 & B1).
    destruct (Qlt_le_dec 0 (size cur)) as [_|Hle]; [| exfalso; lra].
    simpl map. change (run_ops (Extend (Point px py) :: map Extend ps) w)
      with (run_ops (map Extend ps)
              (state_after (addPointToStroke px py) w)).
    unfold state_after. rewrite E1. cbn [snd].
    edestruct (IH (set_ctx k1 (set_currentStroke
                 (Some (Stroke (color cur) (size cur)
                               (points cur ++ [Point px py]))) w))
                  (Stroke (color cur) (size cur) (points cur ++ [Point px py]))
                  (points cur) (Point px py))
      as (k2 & E2 & B2); [exact Hd | reflexivity | reflexivity | exact Hsz |].
    exists k2. rewrite E2. cbn [color size points strokes set_ctx
      set_currentStroke]. split; [now rewrite <- app_assoc|].
    rewrite B2. cbn [ctx set_ctx color size]. rewrite B1.
    rewrite <- app_assoc. reflexivity.
Qed.

Lemma run_begin c sz p w :
  run_ops [Begin c sz p] w
  = World true (Some (Stroke c sz [p])) (strokes w) (ctx w).
Proof. destruct p. reflexivity. Qed.

(** A whole gesture, as a state. *)
Lemma gesture_run w c sz p0 ps :
  exists k,
    run_ops (Begin c sz p0 :: map Extend ps ++ [End]) w
    = World false None (strokes w ++ [Stroke c sz (p0 :: ps)]) k /\
    (0 < sz -> bitmap k = bitmap (ctx w) ++ spec_segments (p0 :: ps) c sz).
Proof.
  change (Begin c sz p0 :: map Extend ps ++ [End])
    with ([Begin c sz p0] ++ map Extend ps ++ [End]).
  rewrite !run_ops_app, run_begin.
  set (w1 := World true (Some (Stroke c sz [p0])) (strokes w) (ctx w)).
  destruct (extends_run ps w1 (Stroke c sz [p0])) as (k & Ek);
    [reflexivity | reflexivity | discriminate |].
  exists k. rewrite Ek. split.
  - simpl run_ops. unfold state_after. simpl run_op.
    erewrite endStroke_commits; [reflexivity | reflexivity | reflexivity |].
    discriminate.
  - intros Hsz.
    destruct (extends_run_bitmap ps w1 (Stroke c sz [p0]) [] p0)
      as (k' & Ek' & Bk'); [reflexivity | reflexivity | reflexivity | exact Hsz |].
    rewrite Ek in Ek'. injection Ek' as <-. exact Bk'.
Qed.

Lemma spec_render_snoc l s :
  spec_render (l ++ [s]) None = spec_render l None ++ spec_draw_stroke s.
Proof.
  unfold spec_render. simpl. rewrite !app_nil_r, flat_map_app. simpl.
  now rewrite app_nil_r.
Qed.

Lemma undoLast_eq w :
  Forall positive_size (removelast (strokes w)) ->
  exists k,
    undoLast w
    = (Ok tt, World (drawing w) (currentStroke w) (removelast (strokes w)) k) /\
    bitmap k = spec_render (removelast (strokes w)) None.
Proof.
  intros Hs. unfold undoLast. rewrite bind_modify.
  destruct (redrawAll_paints (set_strokes (removelast (strokes w)) w) Hs)
    as (k & E & B).
  exists k. rewrite E. split; [reflexivity|].
  rewrite B. unfold spec_render. simpl. now rewrite app_nil_r.
Qed.

Lemma extends_idle ps : forall w,
  inProgress w = None -> run_ops (map Extend ps) w = w.
Proof.
  induction ps as [|p ps IH]; intros w H; [reflexivity|].
  simpl map. change (run_ops (Extend p :: map Extend ps) w)
    with (run_ops (map Extend ps) (state_after (addPointToStroke (x p) (y p)) w)).
  unfold state_after. rewrite addPointToStroke_idle by exact H.
  now apply IH.
Qed.

(** Whatever state it is called in, [addPointToStroke] leaves [strokes]
    and [drawing] as they are. *)
Lemma addPointToStroke_frame px py w :
  strokes (state_after (addPointToStroke px py) w) = strokes w /\
  drawing (state_after (addPointToStroke px py) w) = drawing w.
Proof.
  destruct (inProgress w) as [cur|] eqn:E.
  - unfold inProgress in E. destruct (drawing w) eqn:Hd; [|discriminate].
    unfold state_after, addPointToStroke.
    rewrite bind_gets; cbv beta. rewrite bind_gets; cbv beta.
    rewrite Hd, E. rewrite bool_decide_eq_true_2 by eauto.
    cbn [negb orb]. unfold deref. rewrite bind_ret; cbv beta zeta.
    rewrite bind_modify; cbv beta.
    match goal with
    | |- strokes (snd (?m ?w1)) = _ /\ _ =>
        assert (Hm : ctx_only m)
          by (destruct (2 <=? _)%nat;
              [ apply ctx_only_bind; [apply ctx_only_index | intros p1];
                apply ctx_only_bind; [apply ctx_only_index | intros p2];
                apply ctx_only_drawSegment
              | apply ctx_only_drawDot ]);
        destruct (Hm w1) as [k Hk]; unfold state_after in Hk; rewrite Hk
    end.
    simpl. now rewrite Hd.
  - unfold state_after. rewrite addPointToStroke_idle by exact E. now split.
Qed.

(** *** Further properties of the stroke model *)

(** X1.  In a state the stroke model reaches, with a stroke in progress,
    [addPointToStroke] returns, appends the point to that stroke and paints
    exactly one segment, from the last point of the stroke to the new
    point, in the stroke's colour: the branch that paints a dot is never
    taken.  The segment has the stroke's size as width when that is
    positive and the width the context had before otherwise. *)
Theorem extend_paints_one_segment w cur px py :
  reachable w -> inProgress w = Some cur ->
  exists a k,
    last (points cur) = Some a /\
    addPointToStroke px py w
    = (Ok tt,
       World true
             (Some (Stroke (color cur) (size cur) (points cur ++ [Point px py])))
             (strokes w) k) /\
    bitmap k
    = bitmap (ctx w)
      ++ [Stroked [MoveTo (x a) (y a); LineTo px py] (color cur)
                  (if Qlt_le_dec 0 (size cur) then size cur
                   else lineWidth (ctx w))
                  JoinRound CapRound].
Proof.
  intros Hr Hin. unfold inProgress in Hin.
  destruct (drawing w) eqn:Hd; [|discriminate].
  destruct (nonempty_points_reachable w Hr) as [_ Hne].
  destruct (nonempty_snoc (points cur) (Hne cur Hin)) as (pts & a & Hp).
  destruct (addPointToStroke_segment px py w cur pts a Hd Hin Hp)
    as (k & E & B).
  exists a, k. split; [rewrite Hp; apply last_snoc|].
  split; [|exact B]. rewrite E. unfold set_ctx, set_currentStroke. simpl.
  now rewrite Hd.
Qed.

Lemma extend_paints_one_segment_witness :
  let w := run_ops [Begin "red" 4 (Point 0 0); Extend (Point 10 0)] init in
  reachable w /\
  exists a k,
    last [Point 0 0; Point 10 0] = Some a /\
    addPointToStroke 10 10 w
    = (Ok tt,
       World true (Some (Stroke "red" 4 [Point 0 0; Point 10 0; Point 10 10]))
             [] k) /\
    length (bitmap k) = S (length (bitmap (ctx w))).
Proof.
  intros w.
  assert (H : reachable w) by (repeat apply reach_step; apply reach_init).
  split; [exact H|].
  destruct (extend_paints_one_segment w
              (Stroke "red" 4 [Point 0 0; Point 10 0]) 10 10 H eq_refl)
    as (a & k & Ha & E & B).
  exists a, k. split; [exact Ha|]. split; [exact E|].
  rewrite B, length_app. simpl. lia.
Defined.

(** X2.  Drawing as the pointer moves agrees with the full redraw: when
    the surface shows exactly the committed strokes, it still does after a
    gesture of [beginStroke], one or more [addPointToStroke] and
    [endStroke] with a positive brush size. *)
Theorem gesture_keeps_surface w c sz p0 p1 ps :
  shows_strokes w -> 0 < sz ->
  shows_strokes (run_ops (Begin c sz p0 :: map Extend (p1 :: ps) ++ [End]) w).
Proof.
  intros Hw Hsz.
  destruct (gesture_run w c sz p0 (p1 :: ps)) as (k & -> & B).
  unfold shows_strokes in *. simpl. rewrite spec_render_snoc, <- Hw.
  now apply B.
Qed.

Lemma gesture_keeps_surface_witness :
  shows_strokes init /\
  shows_strokes (run_ops (Begin "red" 4 (Point 0 0)
                            :: map Extend [Point 10 0; Point 10 10] ++ [End])
                         init).
Proof.
  assert (H : shows_strokes init) by reflexivity.
  split; [exact H|].
  refine (gesture_keeps_surface init "red" 4 (Point 0 0) (Point 10 0)
            [Point 10 10] H _).
  reflexivity.
Defined.

(** X3.  A click, [beginStroke] followed at once by [endStroke], commits a
    one-point stroke and paints nothing.  When the surface showed exactly
    the committed strokes before, it no longer does: the dot of the new
    stroke is missing, and the next full redraw adds it. *)
Theorem click_paints_nothing w c sz p0 :
  shows_strokes w -> Forall positive_size (strokes w) -> 0 < sz ->
  let w' := run_ops [Begin c sz p0; End] w in
  strokes w' = strokes w ++ [Stroke c sz [p0]] /\
  bitmap (ctx w') = bitmap (ctx w) /\
  ~ shows_strokes w' /\
  bitmap (ctx (state_after redrawAll w'))
  = bitmap (ctx w') ++ [spec_dot p0 c sz].
Proof.
  intros Hw Hs Hsz w'.
  assert (E : w' = World false None (strokes w ++ [Stroke c sz [p0]]) (ctx w)).
  { subst w'. destruct p0. reflexivity. }
  rewrite E. cbn [strokes ctx]. split; [reflexivity|]. split; [reflexivity|].
  split.
  - unfold shows_strokes. cbn [strokes ctx]. rewrite spec_render_snoc, <- Hw.
    intros H. apply (f_equal length) in H. rewrite length_app in H.
    simpl in H. lia.
  - destruct (redrawAll_paints
                (World false None (strokes w ++ [Stroke c sz [p0]]) (ctx w)))
      as (k & Ek & Bk).
    + cbn [strokes]. apply Forall_app. split; [exact Hs|].
      constructor; [exact Hsz | constructor].
    + unfold state_after. rewrite Ek. cbn [snd ctx set_ctx]. rewrite Bk.
      cbn [strokes]. rewrite flat_map_app.
      unfold shows_strokes, spec_render in Hw. simpl in Hw.
      rewrite app_nil_r in Hw. rewrite Hw. reflexivity.
Qed.

Lemma click_paints_nothing_witness :
  let w' := run_ops [Begin "blue" 2 (Point 5 5); End] init in
  shows_strokes init /\ bitmap (ctx w') = [] /\ ~ shows_strokes w'.
Proof.
  intros w'.
  assert (H : shows_strokes init) by reflexivity.
  assert (Hs : Forall positive_size (strokes init)) by constructor.
  assert (Hsz : 0 < 2) by reflexivity.
  destruct (click_paints_nothing init "blue" 2 (Point 5 5) H Hs Hsz)
    as (_ & Hb & Hn & _).
  split; [exact H|]. split; [exact Hb | exact Hn].
Defined.

(** X4.  Committing a stroke and undoing it is a round trip: after a
    whole gesture followed by [undoLast], [strokes] is what it was before
    the gesture, no stroke is in progress, and, the committed strokes
    having a positive size, the surface shows exactly them. *)
Theorem commit_then_undo w c sz p0 ps :
  Forall positive_size (strokes w) ->
  let w' := run_ops (Begin c sz p0 :: map Extend ps ++ [End; Undo]) w in
  strokes w' = strokes w /\ currentStroke w' = None /\ drawing w' = false /\
  shows_strokes w'.
Proof.
  intros Hs w'. subst w'.
  replace (Begin c sz p0 :: map Extend ps ++ [End; Undo])
    with ((Begin c sz p0 :: map Extend ps ++ [End]) ++ [Undo])
    by (simpl; now rewrite <- app_assoc).
  rewrite run_ops_app.
  destruct (gesture_run w c sz p0 ps) as (k & -> & _).
  destruct (undoLast_eq
              (World false None (strokes w ++ [Stroke c sz (p0 :: ps)]) k))
    as (k' & E & B).
  { cbn [strokes]. now rewrite removelast_last. }
  simpl run_ops. unfold state_after. simpl run_op. rewrite E.
  cbn [snd strokes currentStroke drawing]. rewrite removelast_last.
  repeat split. unfold shows_strokes. cbn [ctx strokes]. rewrite B.
  cbn [strokes]. now rewrite removelast_last.
Qed.

Lemma commit_then_undo_witness :
  let w := run_ops [Begin "blue" 2 (Point 5 5); Extend (Point 6 6); End] init in
  Forall positive_size (strokes w) /\
  strokes (run_ops (Begin "red" 4 (Point 0 0)
                      :: map Extend [Point 10 0] ++ [End; Undo]) w)
  = strokes w.
Proof.
  intros w.
  assert (H : Forall positive_size (strokes w)) by (repeat constructor).
  split; [exact H|].
  exact (proj1 (commit_then_undo w "red" 4 (Point 0 0) [Point 10 0] H)).
Defined.

(** X5.  In every state the stroke model reaches, [currentStroke] is
    non-null only while [drawing] is set: the stroke in progress is
    [currentStroke] itself. *)
Theorem currentStroke_only_while_drawing w :
  reachable w ->
  (forall cur, currentStroke w = Some cur -> drawing w = true) /\
  inProgress w = currentStroke w.
Proof.
  intros Hr.
  assert (H : forall cur, currentStroke w = Some cur -> drawing w = true).
  { induction Hr as [|w o Hr IH]; [discriminate|].
    destruct (nonempty_points_reachable w Hr) as [_ Hne].
    destruct o as [c sz p | p | | |]; simpl run_op.
    - intros cur _. reflexivity.
    - intros cur' Hc'. destruct (inProgress w) as [cur|] eqn:E.
      + destruct (addPointToStroke_frame (x p) (y p) w) as [_ ->].
        unfold inProgress in E. now destruct (drawing w).
      + unfold state_after in *. rewrite addPointToStroke_idle in * by exact E.
        now apply (IH cur').
    - intros cur' Hc'. destruct (drawing w) eqn:Hd.
      + destruct (currentStroke w) as [cur|] eqn:E.
        * unfold state_after in Hc'.
          rewrite (endStroke_commits w cur Hd E) in Hc' by now apply Hne.
          discriminate.
        * unfold state_after in Hc'. rewrite (endStroke_no_stroke w Hd E) in Hc'.
          simpl in Hc'. congruence.
      + unfold state_after in *. rewrite (endStroke_not_drawing w Hd) in *.
        simpl in *. specialize (IH cur' Hc'). congruence.
    - destruct (undoLast_state w) as [k ->]. simpl. exact IH.
    - destruct (clearCanvas_eq w) as [k E]. unfold state_after. rewrite E.
      discriminate. }
  split; [exact H|].
  unfold inProgress. destruct (currentStroke w) as [cur|] eqn:E.
  - now rewrite (H cur eq_refl).
  - now destruct (drawing w).
Qed.

Lemma currentStroke_only_while_drawing_witness :
  let w := run_ops [Begin "red" 4 (Point 0 0); Extend (Point 10 0)] init in
  reachable w /\ inProgress w = currentStroke w /\ currentStroke w <> None.
Proof.
  intros w.
  assert (H : reachable w) by (repeat apply reach_step; apply reach_init).
  split; [exact H|]. split; [|discriminate].
  exact (proj2 (currentStroke_only_while_drawing w H)).
Defined.

(** X6.  [clearCanvas] in the middle of a gesture drops the gesture: the
    [addPointToStroke] calls that follow change nothing and the closing
    [endStroke] commits nothing, so that [strokes] stays empty, no stroke
    is in progress and the surface stays blank. *)
Theorem clear_drops_gesture w ps :
  let w' := run_ops (Clear :: map Extend ps ++ [End]) w in
  strokes w' = [] /\ currentStroke w' = None /\ drawing w' = false /\
  bitmap (ctx w') = [].
Proof.
  intros w'. subst w'.
  change (Clear :: map Extend ps ++ [End])
    with ([Clear] ++ map Extend ps ++ [End]).
  rewrite !run_ops_app.
  assert (E : exists k, run_ops [Clear] w = World (drawing w) None [] k
                        /\ bitmap k = []).
  { destruct (redrawAll_paints (World (drawing w) None [] (ctx w)))
      as (k & E & B); [constructor|].
    exists k. split; [|exact B]. simpl. unfold state_after, clearCanvas.
    rewrite !bind_modify. cbv beta. unfold set_strokes, set_currentStroke.
    cbn [drawing currentStroke strokes ctx]. now rewrite E. }
  destruct E as (k & -> & B).
  rewrite extends_idle
    by (unfold inProgress; simpl; now destruct (drawing w)).
  simpl run_ops. unfold state_after. simpl run_op.
  destruct (drawing w) eqn:Hd.
  - rewrite endStroke_no_stroke by reflexivity. simpl. auto.
  - rewrite endStroke_not_drawing by reflexivity. simpl. auto.
Qed.

(** X7.  [undoLast] in the middle of a gesture removes the last committed
    stroke and, by redrawing, wipes what had been painted of the stroke in
    progress.  That stroke stays in progress and [endStroke] commits it in
    full, while the surface shows only the strokes committed before it. *)
Theorem undo_during_gesture w cur :
  drawing w = true -> currentStroke w = Some cur -> points cur <> [] ->
  Forall positive_size (strokes w) ->
  let w1 := run_ops [Undo] w in
  let w2 := run_ops [Undo; End] w in
  currentStroke w1 = Some cur /\ drawing w1 = true /\
  bitmap (ctx w1) = spec_render (removelast (strokes w)) None /\
  strokes w2 = removelast (strokes w) ++ [cur] /\
  bitmap (ctx w2) = spec_render (removelast (strokes w)) None.
Proof.
  intros Hd Hc Hne Hs w1 w2.
  assert (Hs' : Forall positive_size (removelast (strokes w))).
  { rewrite Forall_forall in *. intros s Hin. apply Hs.
    apply list_elem_of_In, In_removelast. now apply list_elem_of_In. }
  destruct (undoLast_eq w Hs') as (k & E & B).
  assert (E1 : w1 = World true (Some cur) (removelast (strokes w)) k).
  { subst w1. simpl. unfold state_after. simpl run_op. rewrite E. simpl.
    now rewrite Hd, Hc. }
  assert (E2 : w2 = World false None (removelast (strokes w) ++ [cur]) k).
  { subst w2. change [Undo; End] with ([Undo] ++ [End]). rewrite run_ops_app.
    fold w1. rewrite E1. simpl. unfold state_after. simpl run_op.
    now rewrite (endStroke_commits
                   (World true (Some cur) (removelast (strokes w)) k) cur
                   eq_refl eq_refl Hne). }
  rewrite E1, E2. simpl. auto.
Qed.

Lemma undo_during_gesture_witness :
  let w := run_ops [Begin "blue" 2 (Point 5 5); Extend (Point 6 6); End;
                    Begin "red" 4 (Point 0 0); Extend (Point 10 0)] init in
  let cur := Stroke "red" 4 [Point 0 0; Point 10 0] in
  (drawing w = true /\ currentStroke w = Some cur /\ points cur <> [] /\
   Forall positive_size (strokes w)) /\
  strokes (run_ops [Undo; End] w) = [cur] /\
  bitmap (ctx (run_ops [Undo; End] w)) = [].
Proof.
  intros w cur.
  assert (Hd : drawing w = true) by reflexivity.
  assert (Hc : currentStroke w = Some cur) by reflexivity.
  assert (Hne : points cur <> []) by discriminate.
  assert (Hs : Forall positive_size (strokes w)) by (repeat constructor).
  destruct (undo_during_gesture w cur Hd Hc Hne Hs) as (_ & _ & _ & H1 & H2).
  split; [auto|]. split; [exact H1 | exact H2].
Defined.

(** X8.  Committed strokes are never edited in place.  Whatever the state,
    [beginStroke] and [addPointToStroke] leave [strokes] as it is,
    [endStroke] leaves it as it is or appends the stroke in progress,
    [undoLast] removes its last element and [clearCanvas] empties it. *)
Theorem strokes_change_only_at_the_end w o :
  let w' := state_after (run_op o) w in
  match o with
  | Begin _ _ _ | Extend _ => strokes w' = strokes w
  | End =>
      strokes w' = strokes w \/
      exists cur, inProgress w = Some cur /\ strokes w' = strokes w ++ [cur]
  | Undo => strokes w' = removelast (strokes w)
  | Clear => strokes w' = []
  end.
Proof.
  intros w'. subst w'. destruct o as [c sz p | p | | |]; simpl run_op.
  - reflexivity.
  - apply addPointToStroke_frame.
  - destruct (drawing w) eqn:Hd.
    + destruct (currentStroke w) as [cur|] eqn:Hc.
      * destruct (points cur) as [|q r] eqn:E.
        -- left. unfold state_after, endStroke. rewrite bind_gets. cbv beta.
           rewrite Hd. cbn [negb]. rewrite bind_modify. cbv beta.
           rewrite bind_gets. cbv beta. cbn [currentStroke set_drawing].
           rewrite Hc, E. reflexivity.
        -- right. exists cur. unfold inProgress. rewrite Hd. split; [exact Hc|].
           unfold state_after.
           rewrite (endStroke_commits w cur Hd Hc); [reflexivity | congruence].
      * left. unfold state_after. now rewrite (endStroke_no_stroke w Hd Hc).
    + left. unfold state_after. now rewrite (endStroke_not_drawing w Hd).
  - destruct (undoLast_state w) as [k ->]. reflexivity.
  - destruct (clearCanvas_eq w) as [k E]. unfold state_after. now rewrite E.
Qed.

End GestureFacts.

(** ** The listeners, the resize and its debounce *)

Module UIFacts.
Import Canvas CanvasFacts CanvasUI GestureFacts.
Local Open Scope js_scope.

Lemma on_mousemove_eq r e w :
  on_mousemove r e w
  = addPointToStroke (clientX e - left r) (clientY e - top r) w.
Proof.
  unfold on_mousemove. rewrite bind_gets. cbv beta.
  destruct (drawing w) eqn:Hd; [reflexivity|].
  simpl. rewrite addPointToStroke_idle; [reflexivity|].
  unfold inProgress. now rewrite Hd.
Qed.

Lemma mousemoves_run es : forall w,
  fold_left (fun w re => state_after (on_mousemove (fst re) (snd re)) w) es w
  = run_ops (map Extend
      (map (fun re => getCanvasPoint (fst re) (clientX (snd re))
                                     (clientY (snd re))) es)) w.
Proof.
  induction es as [|[r e] es IH]; intros w; [reflexivity|].
  simpl fold_left. rewrite IH. unfold state_after at 1.
  rewrite on_mousemove_eq. reflexivity.
Qed.

(** *** Properties of the listeners *)

(** X9.  The mouse and the touch listeners for a move agree: for a touch
    event that carries a touch, [touchmove] ends as [mousemove] does at the
    same client coordinates, in the same state, although only the mouse
    listener tests [drawing] itself. *)
Theorem touchmove_agrees_with_mousemove r e t w :
  changedTouches e !! 0%nat = Some t ->
  on_touchmove r e w = on_mousemove r t w.
Proof.
  intros H. unfold on_touchmove.
  rewrite (bind_ok _ _ _ _ _ (index_lookup _ _ _ w H)).
  now rewrite on_mousemove_eq.
Qed.

Lemma touchmove_agrees_with_mousemove_witness :
  let r := Rect 8 20 600 400 in
  let t := Pointer 108 70 in
  let w := run_ops [Begin "red" 4 (Point 0 0)] init in
  changedTouches (TouchEvent [t]) !! 0%nat = Some t /\
  on_touchmove r (TouchEvent [t]) w = on_mousemove r t w /\
  on_touchmove r (TouchEvent [t]) init = (Ok tt, init).
Proof.
  intros r t w.
  assert (H : changedTouches (TouchEvent [t]) !! 0%nat = Some t) by reflexivity.
  split; [exact H|]. split.
  - exact (touchmove_agrees_with_mousemove r (TouchEvent [t]) t w H).
  - rewrite (touchmove_agrees_with_mousemove r (TouchEvent [t]) t init H).
    reflexivity.
Defined.

(** X10.  A mouse gesture commits its points in canvas coordinates.
    Whatever the state before, [mousedown], any number of [mousemove] and
    [mouseup] append one stroke to [strokes]; its points are, in order, the
    client coordinates of the events, each taken relative to the left and
    top of the canvas rectangle at the time of that event, and its colour
    and size are those of the controls at [mousedown]. *)
Theorem mouse_gesture_commits c sz r0 e0 es w :
  let w' :=
    state_after on_mouseup
      (fold_left (fun w re => state_after (on_mousemove (fst re) (snd re)) w)
                 es (state_after (on_mousedown r0 c sz e0) w)) in
  strokes w'
  = strokes w
    ++ [Stroke c sz
          (map (fun re => Point (clientX (snd re) - left (fst re))
                                (clientY (snd re) - top (fst re)))
               ((r0, e0) :: es))] /\
  currentStroke w' = None /\ drawing w' = false.
Proof.
  intros w'. subst w'. rewrite mousemoves_run.
  set (ps := map _ es).
  set (p0 := getCanvasPoint r0 (clientX e0) (clientY e0)).
  destruct (gesture_run w c sz p0 ps) as (k & E & _).
  change (Begin c sz p0 :: map Extend ps ++ [End])
    with ([Begin c sz p0] ++ map Extend ps ++ [End]) in E.
  rewrite !run_ops_app in E.
  change (run_ops [Begin c sz p0] w)
    with (state_after (on_mousedown r0 c sz e0) w) in E.
  change (run_ops [End] ?s) with (state_after on_mouseup s) in E.
  rewrite E. simpl. repeat split.
Qed.

(** *** The resize *)

Lemma fit_eq r dpr s :
  fitCanvasToContainer r dpr s
  = lift_app redrawAll
      (Widget (set_ctx ctx0 (app s))
              (Math_round (width r * ratio_or_1 dpr))
              (Math_round (height r * ratio_or_1 dpr))
              (Some (width r)) (Some (height r))
              (ratio_or_1 dpr, 0, 0, ratio_or_1 dpr, 0, 0)
              (resizeTimeout s) (timers s) (nextTimer s)).
Proof. reflexivity. Qed.

Lemma fit_frame r dpr s :
  timers (state_after (fitCanvasToContainer r dpr) s) = timers s /\
  resizeTimeout (state_after (fitCanvasToContainer r dpr) s) = resizeTimeout s /\
  nextTimer (state_after (fitCanvasToContainer r dpr) s) = nextTimer s /\
  strokes (app (state_after (fitCanvasToContainer r dpr) s)) = strokes (app s) /\
  currentStroke (app (state_after (fitCanvasToContainer r dpr) s))
  = currentStroke (app s) /\
  drawing (app (state_after (fitCanvasToContainer r dpr) s)) = drawing (app s).
Proof.
  unfold state_after. rewrite fit_eq. unfold lift_app. cbn [snd app set_app
    timers resizeTimeout nextTimer].
  destruct (ctx_only_redrawAll (set_ctx ctx0 (app s))) as [k Hk].
  unfold state_after in Hk. rewrite Hk. repeat split.
Qed.

(** X11.  A resize keeps the drawing.  On committed strokes of positive
    size [fitCanvasToContainer] returns; it leaves [strokes], the stroke in
    progress and the timers as they are; and although assigning the width
    and height of the canvas erased the bitmap and reset the context, the
    surface afterwards shows exactly the committed strokes, under a
    transform that scales by the device pixel ratio (by 1 when the ratio is
    absent or zero). *)
Theorem fitCanvasToContainer_keeps_drawing r dpr s :
  Forall positive_size (strokes (app s)) ->
  exists k,
    fitCanvasToContainer r dpr s
    = (Ok tt,
       Widget (set_ctx k (app s))
              (Math_round (width r * ratio_or_1 dpr))
              (Math_round (height r * ratio_or_1 dpr))
              (Some (width r)) (Some (height r))
              (ratio_or_1 dpr, 0, 0, ratio_or_1 dpr, 0, 0)
              (resizeTimeout s) (timers s) (nextTimer s)) /\
    bitmap k = spec_render (strokes (app s)) None.
Proof.
  intros Hs. rewrite fit_eq. unfold lift_app. cbn [app set_app].
  destruct (redrawAll_paints (set_ctx ctx0 (app s)) Hs) as (k & E & B).
  exists k. rewrite E. split; [reflexivity|].
  rewrite B. unfold spec_render. simpl. now rewrite app_nil_r.
Qed.

Lemma fitCanvasToContainer_keeps_drawing_witness :
  let w := World true (Some (Stroke "blue" 2 [Point 5 5]))
                 [Stroke "red" 4 [Point 0 0; Point 10 0]] ctx0 in
  let s := Widget w 300 150 None None identity_transform None [] 1%positive in
  let r := Rect 8 20 (601 # 2) 200 in
  Forall positive_size (strokes (app s)) /\
  exists k,
    fitCanvasToContainer r (Some (3 # 2)) s
    = (Ok tt,
       Widget (set_ctx k (app s))
              (Math_round (width r * ratio_or_1 (Some (3 # 2))))
              (Math_round (height r * ratio_or_1 (Some (3 # 2))))
              (Some (width r)) (Some (height r))
              (ratio_or_1 (Some (3 # 2)), 0, 0, ratio_or_1 (Some (3 # 2)), 0, 0)
              (resizeTimeout s) (timers s) (nextTimer s)) /\
    bitmap k = spec_render (strokes (app s)) None.
Proof.
  intros w s r.
  assert (H : Forall positive_size (strokes (app s))) by (repeat constructor).
  exact (conj H (fitCanvasToContainer_keeps_drawing r (Some (3 # 2)) s H)).
Defined.

Example fitCanvasToContainer_rounds :
  let w := World true (Some (Stroke "blue" 2 [Point 5 5]))
                 [Stroke "red" 4 [Point 0 0; Point 10 0]] ctx0 in
  let s := Widget w 300 150 None None identity_transform None [] 1%positive in
  let s' := state_after (fitCanvasToContainer (Rect 8 20 (601 # 2) 200)
                                              (Some (3 # 2))) s in
  canvas_width s' = 451 /\ canvas_height s' = 300 /\
  canvas_width (state_after (fitCanvasToContainer (Rect 8 20 (601 # 2) 200)
                                                  None) s) = 301.
Proof. vm_compute. repeat split. Qed.

(** X12.  [fitCanvasToContainer] is idempotent: with the same rectangle
    and ratio, a second call ends as the first did and leaves the widget
    in the state the first left it in. *)
Theorem fitCanvasToContainer_idempotent r dpr s :
  fitCanvasToContainer r dpr (state_after (fitCanvasToContainer r dpr) s)
  = fitCanvasToContainer r dpr s.
Proof.
  unfold state_after. rewrite !fit_eq. unfold lift_app.
  cbn [snd app set_app resizeTimeout timers nextTimer].
  destruct (ctx_only_redrawAll (set_ctx ctx0 (app s))) as [k Hk].
  unfold state_after in Hk. rewrite Hk. rewrite !set_ctx_set_ctx.
  rewrite Hk. reflexivity.
Qed.

(** *** The debounce *)

Lemma handleResize_eq now s :
  handleResize now s
  = Widget (app s) (canvas_width s) (canvas_height s) (style_width s)
           (style_height s) (transform s) (Some (nextTimer s))
           (timers (clearTimeout (resizeTimeout s) s)
              ++ [(nextTimer s, now + 120)])
           (Pos.succ (nextTimer s)).
Proof. unfold handleResize, clearTimeout. now destruct (resizeTimeout s). Qed.

Lemma clear_single (h : positive) (d : number) :
  filter (fun t : positive * number => fst t <> h) [(h, d)] = [].
Proof.
  rewrite filter_cons, filter_nil. simpl. now destruct (decide (h <> h)).
Qed.

(** At most one timeout is pending, and [resizeTimeout] names it. *)
Lemma one_timer s :
  ui_reachable s ->
  timers s = [] \/
  exists h d, timers s = [(h, d)] /\ resizeTimeout s = Some h.
Proof.
  induction 1 as [s Hr Ht | s e _ IH]; [now left|].
  destruct e as [now | now r dpr]; simpl ui_step.
  - right. exists (nextTimer s), (now + 120). rewrite handleResize_eq.
    cbn [timers resizeTimeout]. split; [|reflexivity].
    destruct IH as [Ht | (h & d & Ht & Hr)].
    + unfold clearTimeout. destruct (resizeTimeout s); cbn [timers];
        rewrite Ht; reflexivity.
    + rewrite Hr. cbn [clearTimeout timers]. rewrite Ht.
      now rewrite clear_single.
  - destruct IH as [Ht | (h & d & Ht & Hr)].
    + left. unfold runTimers. rewrite Ht. reflexivity.
    + unfold runTimers. rewrite Ht. simpl List.filter.
      destruct (due now (h, d)); simpl.
      * now left.
      * right. eauto.
Qed.

Lemma handleResize_one_timer s now :
  ui_reachable s ->
  timers (handleResize now s) = [(nextTimer s, now + 120)].
Proof.
  intros Hr. rewrite handleResize_eq. cbn [timers].
  destruct (one_timer s Hr) as [Ht | (h & d & Ht & Hh)].
  - unfold clearTimeout. destruct (resizeTimeout s); cbn [timers];
      rewrite Ht; reflexivity.
  - rewrite Hh. cbn [clearTimeout timers]. rewrite Ht.
    now rewrite clear_single.
Qed.

Lemma resizes_reachable nows : forall s,
  ui_reachable s -> ui_reachable (fold_left (fun s n => handleResize n s) nows s).
Proof.
  induction nows as [|n nows IH]; intros s Hr; [exact Hr|].
  simpl. apply IH. exact (ui_next s (Resize n) Hr).
Qed.

(** X13.  The resize is debounced.  In every state the widget reaches at
    most one timeout is pending.  [handleResize] touches neither the
    drawing nor the canvas; it leaves exactly one timeout pending, due 120
    ms after the call, so that after a burst of resize events the only
    timeout pending is the one of the last event. *)
Theorem resize_is_debounced s nows now :
  ui_reachable s ->
  (length (timers s) <= 1)%nat /\
  timers (handleResize now s) = [(nextTimer s, now + 120)] /\
  app (handleResize now s) = app s /\
  canvas_width (handleResize now s) = canvas_width s /\
  canvas_height (handleResize now s) = canvas_height s /\
  exists h,
    timers (fold_left (fun s n => handleResize n s) (nows ++ [now]) s)
    = [(h, now + 120)].
Proof.
  intros Hr. split.
  { destruct (one_timer s Hr) as [-> | (h & d & -> & _)]; simpl; lia. }
  split; [now apply handleResize_one_timer|].
  rewrite handleResize_eq. cbn [app canvas_width canvas_height].
  repeat split.
  rewrite fold_left_app. simpl fold_left.
  eexists. apply handleResize_one_timer. now apply resizes_reachable.
Qed.

Lemma resize_is_debounced_witness :
  let s := Widget init 300 150 None None identity_transform None [] 1%positive in
  ui_reachable s /\
  exists h,
    timers (fold_left (fun s n => handleResize n s) ([1000; 1040] ++ [1090]) s)
    = [(h, 1090 + 120)].
Proof.
  intros s.
  assert (H : ui_reachable s) by (apply ui_start; reflexivity).
  split; [exact H|].
  exact (proj2 (proj2 (proj2 (proj2 (proj2
           (resize_is_debounced s [1000; 1040] 1090 H)))))).
Defined.

Lemma set_timers_id s : set_timers (timers s) s = s.
Proof. now destruct s. Qed.

(** X14.  The redraw runs once, and not before its time.  After
    [handleResize] at time [now], in a state the widget reaches, the
    browser's timers at time [t] change nothing while [t] is before
    [now + 120]; from then on they run [fitCanvasToContainer] exactly once
    and leave no timeout pending. *)
Theorem debounced_redraw_runs_once s now t r dpr :
  ui_reachable s ->
  let s1 := handleResize now s in
  runTimers t r dpr s1
  = (if Qle_bool (now + 120) t
     then state_after (fitCanvasToContainer r dpr) (set_timers [] s1)
     else s1) /\
  timers (runTimers t r dpr s1)
  = (if Qle_bool (now + 120) t then [] else [(nextTimer s, now + 120)]).
Proof.
  intros Hr s1.
  assert (Ht : timers s1 = [(nextTimer s, now + 120)])
    by now apply handleResize_one_timer.
  assert (E : runTimers t r dpr s1
              = (if Qle_bool (now + 120) t
                 then state_after (fitCanvasToContainer r dpr) (set_timers [] s1)
                 else s1)).
  { unfold runTimers. rewrite Ht. cbn [List.filter]. unfold due. cbn [snd].
    destruct (Qle_bool (now + 120) t); cbn [negb fold_left List.filter];
      [reflexivity|].
    transitivity (set_timers (timers s1) s1);
      [now rewrite Ht | apply set_timers_id]. }
  split; [exact E|]. rewrite E.
  destruct (Qle_bool (now + 120) t).
  - destruct (fit_frame r dpr (set_timers [] s1)) as (Hf & _). exact Hf.
  - exact Ht.
Qed.

Lemma debounced_redraw_runs_once_witness :
  let s := Widget init 300 150 None None identity_transform None [] 1%positive in
  let s1 := handleResize 1000 s in
  ui_reachable s /\
  runTimers 1100 (Rect 0 0 600 400) (Some 2) s1 = s1 /\
  canvas_width (runTimers 1120 (Rect 0 0 600 400) (Some 2) s1) = 1200 /\
  timers (runTimers 1120 (Rect 0 0 600 400) (Some 2) s1) = [].
Proof.
  intros s s1.
  assert (H : ui_reachable s) by (apply ui_start; reflexivity).
  split; [exact H|].
  pose proof (proj1 (debounced_redraw_runs_once s 1000 1100
                       (Rect 0 0 600 400) (Some 2) H)) as E1.
  pose proof (proj1 (debounced_redraw_runs_once s 1000 1120
                       (Rect 0 0 600 400) (Some 2) H)) as E2.
  split; [exact E1|]. fold s1 in E2. rewrite E2. split; reflexivity.
Defined.

End UIFacts.

(** ** The animation over time *)

Module SvgLoopFacts.
Import PrimFloat SpecFloat FloatOps FloatAxioms.
Import SvgAnim SvgAnimFacts DoubleFacts.
Local Open Scope float_scope.

Lemma svgAnimate_keeps_direction v ts s :
  svgDir s = 1 \/ svgDir s = -1 ->
  svgDir (svgAnimate v ts s) = 1 \/ svgDir (svgAnimate v ts s) = -1.
Proof.
  intros Hd. destruct (svgAnimate_motion v ts s) as [_ ->].
  unfold bounce. destruct (svgMax <=? _); [now right|].
  destruct (_ <=? svgMin); [now left | exact Hd].
Qed.

(** After a call [svgX] is NaN or in range. *)
Lemma svgAnimate_nan_or_in_range v ts s :
  is_nan (svgX (svgAnimate v ts s)) = true \/
  in_range (svgX (svgAnimate v ts s)) = true.
Proof.
  destruct (svgAnimate_motion v ts s) as [-> _].
  destruct (is_nan (tentative v ts s)) eqn:Hn.
  - left. now rewrite (bounce_nan _ _ Hn).
  - right. now apply bounce_in_range.
Qed.

(** NaN stays. *)
Lemma svgAnimate_nan_stays v ts s :
  is_nan (svgX s) = true -> is_nan (svgX (svgAnimate v ts s)) = true.
Proof.
  intros Hn. destruct (svgAnimate_motion v ts s) as [-> _].
  assert (Hp : is_nan (tentative v ts s) = true)
    by (unfold tentative; now apply is_nan_add_l).
  now rewrite (bounce_nan _ _ Hp).
Qed.

Lemma frames_keep_motion v ts (l : list positive) : forall s,
  (svgDir s = 1 \/ svgDir s = -1) /\
  (is_nan (svgX s) = true \/ in_range (svgX s) = true) ->
  let s' := fold_left (fun s _ => svgAnimate v ts s) l s in
  (svgDir s' = 1 \/ svgDir s' = -1) /\
  (is_nan (svgX s') = true \/ in_range (svgX s') = true).
Proof.
  induction l as [|h l IH]; intros s H; [exact H|].
  simpl. apply IH. split; [|apply svgAnimate_nan_or_in_range].
  apply svgAnimate_keeps_direction. apply H.
Qed.

Lemma startSvg_motion s :
  svgX (startSvg s) = svgX s /\ svgDir (startSvg s) = svgDir s.
Proof. unfold startSvg. destruct (svgPlaying s); simpl; auto. Qed.

Lemma pauseSvgAnim_motion s :
  svgX (pauseSvgAnim s) = svgX s /\ svgDir (pauseSvgAnim s) = svgDir s.
Proof. unfold pauseSvgAnim. simpl. destruct (svgAnimReq s); simpl; auto. Qed.

Lemma runFrame_stopped v ts s :
  frameCallbacks s = [] -> runFrame v ts s = s.
Proof. intros H. unfold runFrame. rewrite H. simpl. rewrite <- H. now destruct s. Qed.

Lemma reachable_motion s :
  reachable s ->
  (svgDir s = 1 \/ svgDir s = -1) /\
  (is_nan (svgX s) = true \/ in_range (svgX s) = true).
Proof.
  induction 1 as [|s e _ IH].
  - split; [now left | now right].
  - destruct e as [| | v ts]; simpl step.
    + destruct (startSvg_motion s) as [-> ->]. exact IH.
    + destruct (pauseSvgAnim_motion s) as [-> ->]. exact IH.
    + unfold runFrame. apply frames_keep_motion. exact IH.
Qed.

(** A double in range is finite and not zero. *)
Lemma in_range_finite x :
  in_range x = true -> exists s m e, Prim2SF x = S754_finite s m e.
Proof.
  unfold in_range. intros H. apply andb_true_iff in H. destruct H as [H1 H2].
  rewrite leb_spec in H1, H2.
  assert (E1 : Prim2SF svgMin = S754_finite false 8444249301319680 (-48))
    by reflexivity.
  assert (E2 : Prim2SF svgMax = S754_finite false 6772991627100160 (-43))
    by reflexivity.
  rewrite E1 in H1. rewrite E2 in H2.
  destruct (Prim2SF x) as [s|s| |s m e]; eauto; try discriminate.
  destruct s; discriminate.
Qed.

(** *** Properties of the animation *)

(** X15.  In every state the animation reaches, whatever the timestamps
    and speed factors of its frames, [svgDir] is [1] or [-1] and [svgX]
    lies in [[svgMin, svgMax]] unless it is NaN; once [svgX] is NaN it is
    NaN after every further call of [svgAnimate]. *)
Theorem svgX_in_range_unless_nan s v ts :
  reachable s ->
  (svgDir s = 1 \/ svgDir s = -1) /\
  (is_nan (svgX s) = true \/ in_range (svgX s) = true) /\
  (is_nan (svgX s) = true -> is_nan (svgX (svgAnimate v ts s)) = true).
Proof.
  intros Hr. destruct (reachable_motion s Hr) as [Hd Hx].
  split; [exact Hd|]. split; [exact Hx|]. apply svgAnimate_nan_stays.
Qed.

Lemma svgX_in_range_unless_nan_witness :
  let s := step (Frame 2 9016) (step (Frame 1 16) init) in
  let n := step (Frame 0x1p1020 16) init in
  (reachable s /\ svgX s = 770 /\ svgDir s = -1 /\ in_range (svgX s) = true) /\
  (reachable n /\ is_nan (svgX n) = true /\
   is_nan (svgX (svgAnimate 1 1016 n)) = true).
Proof.
  intros s n.
  assert (Hs : reachable s) by (repeat apply reach_event; apply reach_boot).
  assert (Hn : reachable n) by (repeat apply reach_event; apply reach_boot).
  destruct (svgX_in_range_unless_nan n 1 1016 Hn) as (_ & _ & Hstay).
  split.
  - split; [exact Hs|]. repeat split.
  - split; [exact Hn|]. split; [reflexivity|]. apply Hstay. reflexivity.
Defined.

(** X16.  Resuming does not make the shape jump.  From a stopped state
    the animation reaches in which [svgX] is a number, [startSvg] followed
    by the next frame leaves [svgX] exactly where it was, however long the
    pause, provided the timestamp of that frame is finite and so is the
    velocity [svgDir * (svgVelocityBase * speedFactor)]: the elapsed time
    it uses is [ts - ts]. *)
Theorem resume_does_not_jump s v ts :
  reachable s -> svgPlaying s = false ->
  is_nan (svgX s) = false ->
  is_finite ts = true ->
  is_finite (svgDir s * (svgVelocityBase * v)) = true ->
  svgX (runFrame v ts (startSvg s)) = svgX s.
Proof.
  intros Hr Hp Hx Hts Hv.
  destruct (reachable_motion s Hr) as [_ [Hnan | Hin]]; [congruence|].
  destruct (loop_invariant s Hr) as [(E & _) | (_ & _ & Hc)]; [congruence|].
  rewrite (startSvg_stopped s Hp), Hc. unfold runFrame.
  cbn [frameCallbacks set_frameCallbacks app fold_left].
  match goal with |- svgX (svgAnimate v ts ?s1) = _ =>
    destruct (svgAnimate_motion v ts s1) as [-> _];
    assert (Ht : tentative v ts s1 = svgX s)
  end.
  { unfold tentative, elapsed.
    cbn [svgX svgDir lastTimestamp falsy to_number].
    assert (E1000 : Prim2SF 1000 = S754_finite false 8796093022208000 (-43))
      by reflexivity.
    destruct (div_zero (ts - ts) 1000 _ _ _ _ (sub_self ts Hts) E1000)
      as [s1 H1].
    destruct (mul_zero _ _ _ Hv H1) as [s2 H2].
    destruct (in_range_finite _ Hin) as (sx & m & e & Hf).
    exact (add_zero _ _ _ _ _ _ Hf H2). }
  rewrite Ht. cbn [svgDir].
  unfold in_range in Hin. apply andb_true_iff in Hin. destruct Hin as [Hlo Hhi].
  unfold bounce.
  destruct (svgMax <=? svgX s) eqn:Hmax.
  { cbn [fst]. symmetry.
    now apply (leb_antisym_finite (svgX s) svgMax false 6772991627100160 (-43)). }
  destruct (svgX s <=? svgMin) eqn:Hmin; [|reflexivity].
  cbn [fst]. symmetry.
  now apply (leb_antisym_finite (svgX s) svgMin false 8444249301319680 (-48)).
Qed.

Lemma resume_does_not_jump_witness :
  let s := step Pause (step (Frame 1 1016) (step (Frame 1 16) init)) in
  (reachable s /\ svgPlaying s = false /\ is_nan (svgX s) = false /\
   is_finite 999999 = true /\
   is_finite (svgDir s * (svgVelocityBase * 3)) = true) /\
  svgX s = 150 /\
  svgX (runFrame 3 999999 (startSvg s)) = svgX s.
Proof.
  intros s.
  assert (H : reachable s) by (repeat apply reach_event; apply reach_boot).
  assert (Hp : svgPlaying s = false) by reflexivity.
  assert (Hx : is_nan (svgX s) = false) by reflexivity.
  assert (Ht : is_finite 999999 = true) by reflexivity.
  assert (Hv : is_finite (svgDir s * (svgVelocityBase * 3)) = true)
    by reflexivity.
  split; [auto|]. split; [reflexivity|].
  exact (resume_does_not_jump s 3 999999 H Hp Hx Ht Hv).
Defined.

(** X17.  While paused nothing moves: after [pauseSvgAnim], in a state the
    animation reaches, no sequence of frames changes the state. *)
Theorem paused_animation_is_frozen s (frames : list (float * float)) :
  reachable s ->
  fold_left (fun s f => runFrame (fst f) (snd f) s) frames (pauseSvgAnim s)
  = pauseSvgAnim s.
Proof.
  intros Hr.
  assert (Hc : frameCallbacks (pauseSvgAnim s) = []).
  { destruct (loop_invariant _ (reach_event s Pause Hr))
      as [(E & _) | (_ & _ & Hc)]; [|exact Hc].
    simpl step in E. destruct (pauseSvgAnim_cancels s) as (E' & _).
    congruence. }
  induction frames as [|f frames IH]; [reflexivity|].
  simpl. now rewrite (runFrame_stopped _ _ _ Hc).
Qed.

Lemma paused_animation_is_frozen_witness :
  let s := step (Frame 1 1016) (step (Frame 1 16) init) in
  reachable s /\
  fold_left (fun s f => runFrame (fst f) (snd f) s) [(1, 2016); (2, 3016)]
            (pauseSvgAnim s)
  = pauseSvgAnim s.
Proof.
  intros s.
  assert (H : reachable s) by (repeat apply reach_event; apply reach_boot).
  split; [exact H|].
  exact (paused_animation_is_frozen s [(1, 2016); (2, 3016)] H).
Defined.

(** X18.  One step per frame.  In a running state the animation reaches,
    however often play was clicked, a frame calls [svgAnimate] exactly
    once and leaves exactly one callback pending for the next frame. *)
Theorem one_step_per_frame s v ts :
  reachable s -> svgPlaying s = true ->
  runFrame v ts s = svgAnimate v ts (set_frameCallbacks [] s) /\
  frameCallbacks (runFrame v ts s) = [nextHandle s] /\
  runFrame v ts (startSvg s) = runFrame v ts s.
Proof.
  intros Hr Hp.
  destruct (loop_invariant s Hr) as [(_ & h & _ & Hc) | (E & _)];
    [|congruence].
  assert (E : runFrame v ts s = svgAnimate v ts (set_frameCallbacks [] s))
    by (unfold runFrame; now rewrite Hc).
  split; [exact E|]. split.
  - rewrite E.
    destruct (svgAnimate_schedule v ts (set_frameCallbacks [] s)) as (_ & -> & _).
    simpl. now rewrite Hp.
  - now rewrite (startSvg_running s Hp).
Qed.

Lemma one_step_per_frame_witness :
  let s := step Play (step Play (step (Frame 1 16) init)) in
  reachable s /\ svgPlaying s = true /\
  length (frameCallbacks (runFrame 1 1016 s)) = 1%nat.
Proof.
  intros s.
  assert (H : reachable s) by (repeat apply reach_event; apply reach_boot).
  assert (Hp : svgPlaying s = true) by reflexivity.
  destruct (one_step_per_frame s 1 1016 H Hp) as (_ & Hc & _).
  split; [exact H|]. split; [exact Hp|]. now rewrite Hc.
Defined.

End SvgLoopFacts.

(** ** The buttons of the product listing *)

Module ListingFacts.
Import Products ProductsFacts ListingUI.
Local Open Scope js_scope.

(** What a handler renders, as a function of the catalogue. *)
Lemma run_handler_eq h s l a :
  allProducts s = Some l -> heap s !! l = Some a ->
  exists shown,
    run_handler h s
    = (Ok tt, Page (<[fresh (dom (heap s)) := shown]> (heap s)) (Some l) shown) /\
    shown = match h with
            | SortLow => sorted_by (fun p q => price p - price q) a
            | SortHigh => sorted_by (fun p q => price q - price p) a
            | Filter cat =>
                List.filter (fun p => String.eqb (category p) cat) a
            end.
Proof.
  intros Ha Hl. destruct h as [| | cat]; simpl run_handler; eexists;
    (split; [|reflexivity]).
  - apply (sort_copy_eq _ s l a Ha Hl).
  - apply (sort_copy_eq _ s l a Ha Hl).
  - apply (filterCategory_eq cat s l a Ha Hl).
Qed.

Lemma fetchProducts_eq data s :
  fetchProducts data s
  = (Ok tt, Page (<[fresh (dom (heap s)) := data]> (heap s))
                 (Some (fresh (dom (heap s)))) data).
Proof.
  unfold fetchProducts. rewrite (bind_ok _ _ _ _ _ (array_new_eq data s)).
  rewrite bind_modify. cbv beta.
  rewrite (renderProducts_eq (fresh (dom (heap s))) data).
  - reflexivity.
  - simpl. apply lookup_insert_eq.
Qed.

Lemma handlers_keep_array hs : forall s l a,
  allProducts s = Some l -> heap s !! l = Some a ->
  allProducts (run_handlers hs s) = Some l /\
  heap (run_handlers hs s) !! l = Some a.
Proof.
  induction hs as [|h hs IH]; intros s l a Ha Hl; [now split|].
  change (run_handlers (h :: hs) s)
    with (run_handlers hs (state_after (run_handler h) s)).
  destruct (run_handler_eq h s l a Ha Hl) as (shown & E & _).
  unfold state_after. rewrite E. cbn [snd].
  apply IH; [reflexivity|]. simpl. rewrite fresh_insert_frame; eauto.
Qed.

(** *** Properties of the listing *)

(** X19.  Sorts and filters do not stack.  After [fetchProducts] has
    stored and rendered the catalogue, and after any sequence of clicks on
    the sort and filter buttons, [allProducts] still refers to the array of
    the fetched products, in the fetched order; the next handler returns,
    and what it renders is what it would have rendered right after the
    fetch: a filter or a sort applies to the whole catalogue, never to what
    is on display. *)
Theorem handlers_work_on_the_catalogue data s0 hs h :
  let s := state_after (fetchProducts data) s0 in
  let s' := run_handlers hs s in
  innerHTML s = data /\
  allProducts s' = allProducts s /\
  (exists l, allProducts s' = Some l /\ heap s' !! l = Some data) /\
  fst (run_handler h s') = Ok tt /\
  innerHTML (state_after (run_handler h) s')
  = innerHTML (state_after (run_handler h) s).
Proof.
  intros s s'. set (l := fresh (dom (heap s0))).
  assert (Hs : s = Page (<[l := data]> (heap s0)) (Some l) data)
    by (subst s; unfold state_after; now rewrite fetchProducts_eq).
  clearbody s. subst s'.
  assert (Ha : allProducts s = Some l) by now rewrite Hs.
  assert (Hl : heap s !! l = Some data)
    by (rewrite Hs; simpl; apply lookup_insert_eq).
  assert (Hi : innerHTML s = data) by now rewrite Hs.
  clear Hs.
  destruct (handlers_keep_array hs s l data Ha Hl) as [Ha' Hl'].
  destruct (run_handler_eq h s l data Ha Hl) as (shown & E & Es).
  destruct (run_handler_eq h (run_handlers hs s) l data Ha' Hl')
    as (shown' & E' & Es').
  split; [exact Hi|]. split; [now rewrite Ha', Ha|]. split; [eauto|].
  unfold state_after. rewrite E, E'. simpl. split; [reflexivity|].
  now rewrite Es, Es'.
Qed.

(** X20.  Before [fetchProducts] has stored the catalogue there is no
    [allProducts]: each of the three handlers throws a ReferenceError and
    leaves the page, the listing included, as it was. *)
Theorem handlers_before_fetch_throw h s :
  allProducts s = None -> run_handler h s = (Throw ReferenceError, s).
Proof.
  intros Ha.
  assert (E : read_allProducts s = (Throw ReferenceError, s)).
  { unfold read_allProducts. rewrite bind_gets. cbv beta. now rewrite Ha. }
  destruct h as [| | cat]; simpl run_handler;
    unfold sortPriceLow, sortPriceHigh, filterCategory;
    apply (bind_throw _ _ _ _ _ E).
Qed.

Lemma handlers_before_fetch_throw_witness :
  let s := Page ∅ None [] in
  allProducts s = None /\
  run_handler (Filter "home") s = (Throw ReferenceError, s).
Proof.
  intros s. assert (H : allProducts s = None) by reflexivity.
  split; [exact H|]. exact (handlers_before_fetch_throw (Filter "home") s H).
Defined.

End ListingFacts.
